(** * TypeSafeEventEmitter: a shallow embedding and its properties

    The development follows [src/TypeSafeEventEmitter.ts].  The emitter object
    is a record holding the two private fields of the class; every method is a
    function on that record.  Listeners are JavaScript functions: they are
    compared by identity, they may throw, they may call back into the emitter
    that runs them, and a wildcard listener may assign to the fields of the
    event object it is handed.  User functions are therefore given by a table
    of small programs over the emitter's public methods, and [emit] is an
    interpreter with a recursion budget: [None] stands for a call of [emit]
    that never returns (in an engine, the call stack is exhausted).

    The field [listeners] is a plain object used as a map.  A read of
    [this.listeners[name]] finds the [Set] stored under the name, or, when
    there is none, whatever the object inherits under that name
    ([constructor], [toString], ...), which is truthy and is no [Set]: the
    methods then raise a [TypeError]. *)

From stdpp Require Import gmap strings list fin_maps.

Local Open Scope string_scope.
Local Open Scope list_scope.
Local Open Scope nat_scope.

(** ** Values, listeners, events *)

(** Payloads and thrown values.  [VError] is an instance of [Error], known by
    its message; [VObj] is any other object, known by its reference. *)
Inductive value :=
| VUndefined
| VNum (n : Z)
| VStr (s : string)
| VObj (ref : nat)
| VError (message : string).

(** [err instanceof Error] *)
Definition is_error (v : value) : bool :=
  match v with
  | VError _ => true
  | _ => false
  end.

(** A registered function.  [User n] is the n-th function of the client code.
    [OnceWrapper i eventName listener] is the closure [onceWrapper] built by the
    i-th call of [once]: it captures [eventName] and [listener], and two calls
    of [once] give two distinct closures. *)
Inductive lid :=
| User (n : nat)
| OnceWrapper (i : nat) (eventName : string) (listener : nat).

(** What a listener is called with: the bare payload, or the object
    [{ event: eventName, payload: payload }] built for wildcard listeners,
    given by what its two fields hold when the call is made. *)
Inductive arg :=
| ArgPayload (payload : value)
| ArgWild (event : string) (payload : value).

(** The two [forEach] loops of [emit]. *)
Inductive kind := Specific | Wildcard.

#[global] Instance value_eq_dec : EqDecision value.
Proof. solve_decision. Defined.
#[global] Instance lid_eq_dec : EqDecision lid.
Proof. solve_decision. Defined.
#[global] Instance arg_eq_dec : EqDecision arg.
Proof. solve_decision. Defined.
#[global] Instance kind_eq_dec : EqDecision kind.
Proof. solve_decision. Defined.

(** The body of a user function: a sequence of calls on the emitter and of
    assignments to event objects, ended by a normal return or by a [throw].
    [CallCount] reads a listener count and continues according to it.  The
    event objects are those of the wildcard loops in progress, numbered from
    the innermost one: for a function called by a wildcard loop, number 0 is
    the object it was called with; the other numbers are objects a function
    can only know by having kept them.  [ReadData] reads the two fields of
    such an object. *)
Inductive prog :=
| Return
| Throw (v : value)
| CallOn (eventName : string) (listener : nat) (k : prog)
| CallOnce (eventName : string) (listener : nat) (k : prog)
| CallOff (eventName : string) (listener : nat) (k : prog)
| CallEmit (eventName : string) (payload : value) (k : prog)
| CallRemoveAll (eventName : option string) (k : prog)
| CallCount (eventName : string) (k : nat → prog)
| WriteEvent (i : nat) (event : string) (k : prog)
| WritePayload (i : nat) (payload : value) (k : prog)
| ReadData (i : nat) (k : option (string * value) → prog).

(** How a function call completed. *)
Inductive completion :=
| Normal
| Thrown (err : value).

(** The log of one run.  The depth [d] is the nesting of [emit] calls: the
    caller's [emit] has depth 0, an [emit] made while a listener of a depth-d
    emission runs (by the listener itself or by the [catch] block) has depth
    [S d].
    - [EvEmit d e p]: [emit(e, p)] is entered;
    - [EvCall d l a]: the emission at depth d calls the registered listener l;
    - [EvRun d n a]: the user function n starts running;
    - [EvCaught d k err]: the [catch] block of loop k caught [err]. *)
Inductive event :=
| EvEmit (d : nat) (eventName : string) (payload : value)
| EvCall (d : nat) (l : lid) (a : arg)
| EvRun (d : nat) (n : nat) (a : arg)
| EvCaught (d : nat) (k : kind) (err : value).

Abbreviation trace := (list event).

(** ** The emitter object *)

(** [listeners] is the object used as a map from event names to [Set]s;
    a [Set] is the list of its members in insertion order, without
    repetition.  [wrapperCount] counts the closures [once] has built, which
    gives the next closure its identity.  [eventData] holds the objects
    [wildcardEventData] of the calls of [emit] whose wildcard loop is running,
    innermost first, each by what its fields [event] and [payload] hold. *)
Record emitter := Emitter {
  listeners : gmap string (list lid);
  wildcardListeners : list lid;
  wrapperCount : nat;
  eventData : list (string * value)
}.

(** [new TypeSafeEventEmitter()] *)
Definition new_emitter : emitter := Emitter ∅ [] 0 [].

(** The names every object inherits from [Object.prototype]. *)
Definition inherited (name : string) : bool :=
  bool_decide (name ∈ ["constructor"; "hasOwnProperty"; "isPrototypeOf";
                       "propertyIsEnumerable"; "toLocaleString"; "toString";
                       "valueOf"; "__proto__"; "__defineGetter__";
                       "__defineSetter__"; "__lookupGetter__"; "__lookupSetter__"]).

(** What a read of [this.listeners[name]] finds. *)
Inductive slot :=
| Own (set : list lid)
| Inherited
| Absent.

(** [this.listeners[name]] *)
Definition property (name : string) (s : emitter) : slot :=
  match listeners s !! name with
  | Some set => Own set
  | None => if inherited name then Inherited else Absent
  end.

(** The [TypeError]s an engine raises when an inherited value is used as a
    [Set]; a [TypeError] is an [Error]. *)
Definition add_is_not_a_function : value :=
  VError "this.listeners[eventName].add is not a function".
Definition delete_is_not_a_function : value :=
  VError "eventListeners.delete is not a function".
Definition is_not_iterable : value :=
  VError "eventListeners is not iterable".

(** [Set.prototype.add] *)
Definition Set_add (l : lid) (set : list lid) : list lid :=
  if decide (l ∈ set) then set else set ++ [l].

(** [Set.prototype.delete] *)
Definition Set_delete (l : lid) (set : list lid) : list lid :=
  filter (λ x, x ≠ l) set.

(** [on(eventName, listener)]: how the call completes and the emitter
    afterwards. *)
Definition on (eventName : string) (listener : lid) (s : emitter)
  : completion * emitter :=
  if decide (eventName = "*") then
    (Normal, Emitter (listeners s) (Set_add listener (wildcardListeners s))
               (wrapperCount s) (eventData s))
  else
    match property eventName s with
    | Own set =>
        (Normal, Emitter (<[eventName := Set_add listener set]> (listeners s))
                   (wildcardListeners s) (wrapperCount s) (eventData s))
    | Absent =>
        (Normal, Emitter (<[eventName := Set_add listener []]> (listeners s))
                   (wildcardListeners s) (wrapperCount s) (eventData s))
    | Inherited => (Thrown add_is_not_a_function, s)
    end.

(** [off(eventName, listener)] *)
Definition off (eventName : string) (listener : lid) (s : emitter)
  : completion * emitter :=
  if decide (eventName = "*") then
    (Normal, Emitter (listeners s) (Set_delete listener (wildcardListeners s))
               (wrapperCount s) (eventData s))
  else
    match property eventName s with
    | Own eventListeners =>
        (Normal, Emitter (<[eventName := Set_delete listener eventListeners]> (listeners s))
                   (wildcardListeners s) (wrapperCount s) (eventData s))
    | Absent => (Normal, s)
    | Inherited => (Thrown delete_is_not_a_function, s)
    end.

(** [once(eventName, listener)]: builds the closure and registers it. *)
Definition once (eventName : string) (listener : nat) (s : emitter)
  : completion * emitter :=
  let onceWrapper := OnceWrapper (wrapperCount s) eventName listener in
  on eventName onceWrapper
     (Emitter (listeners s) (wildcardListeners s) (S (wrapperCount s)) (eventData s)).

(** [getListenerCount(eventName)]: an inherited value has no [size]. *)
Definition getListenerCount (eventName : string) (s : emitter) : nat :=
  if decide (eventName = "*") then length (wildcardListeners s)
  else match property eventName s with
       | Own set => length set
       | Inherited | Absent => 0
       end.

(** [removeAllListeners(eventName?)]: the test [if (eventName)] is a
    truthiness test, which an absent argument and the empty string both fail. *)
Definition removeAllListeners (eventName : option string) (s : emitter) : emitter :=
  match eventName with
  | Some name =>
      if decide (name = "") then Emitter ∅ [] (wrapperCount s) (eventData s)
      else if decide (name = "*") then
        Emitter (listeners s) [] (wrapperCount s) (eventData s)
      else
        Emitter (delete name (listeners s)) (wildcardListeners s) (wrapperCount s)
          (eventData s)
  | None => Emitter ∅ [] (wrapperCount s) (eventData s)
  end.

(** ** Event objects *)

(** [const wildcardEventData = { event: eventName, payload: payload }] *)
Definition push (data : string * value) (s : emitter) : emitter :=
  Emitter (listeners s) (wildcardListeners s) (wrapperCount s) (data :: eventData s).

(** The wildcard loop is over: its object is handed to nobody any more. *)
Definition pop (s : emitter) : emitter :=
  Emitter (listeners s) (wildcardListeners s) (wrapperCount s) (tail (eventData s)).

(** [data.event = event] on the i-th object. *)
Definition writeEvent (i : nat) (event : string) (s : emitter) : emitter :=
  Emitter (listeners s) (wildcardListeners s) (wrapperCount s)
    (alter (λ data, (event, data.2)) i (eventData s)).

(** [data.payload = payload] on the i-th object. *)
Definition writePayload (i : nat) (payload : value) (s : emitter) : emitter :=
  Emitter (listeners s) (wildcardListeners s) (wrapperCount s)
    (alter (λ data, (data.1, payload)) i (eventData s)).

(** What a loop passes to a listener: the payload, or the object of the
    wildcard loop as it is at that moment ([a] is the object as built). *)
Definition current (k : kind) (a : arg) (s : emitter) : arg :=
  match k, eventData s with
  | Wildcard, (event, payload) :: _ => ArgWild event payload
  | _, _ => a
  end.

(** ** Running listeners *)

(** The result of a call: how it completed, the emitter afterwards and what
    was logged; [None] when the call does not return. *)
Abbreviation outcome := (option (completion * emitter * trace)).

(** A method other than [emit]: it returns or throws at once, logging
    nothing. *)
Definition method (r : completion * emitter) : outcome := Some (r.1, r.2, []).

(** Sequencing: [k] runs after a normal completion only. *)
Definition andThen (r : outcome) (k : emitter → outcome) : outcome :=
  match r with
  | Some (Normal, s, t) =>
      match k s with
      | Some (c, s', t') => Some (c, s', t ++ t')
      | None => None
      end
  | other => other
  end.

(** [try { r } catch (err) { handler }] *)
Definition tryCatch (r : outcome) (handler : value → emitter → outcome) : outcome :=
  match r with
  | Some (Thrown err, s, t) =>
      match handler err s with
      | Some (c, s', t') => Some (c, s', t ++ t')
      | None => None
      end
  | other => other
  end.

(** Puts [e] in front of the log of [r]. *)
Definition logged (e : event) (r : outcome) : outcome :=
  match r with
  | Some (c, s, t) => Some (c, s, e :: t)
  | None => None
  end.

(** The object of a finished wildcard loop is dropped, however the loop
    ended. *)
Definition popped (r : outcome) : outcome :=
  match r with
  | Some (c, s, t) => Some (c, pop s, t)
  | None => None
  end.

(** The value passed to [emit('error', ...)] by the [catch] blocks. *)
Definition to_error (k : kind) (err : value) : value :=
  if is_error err then err
  else match k with
       | Specific => VError "An error occurred in a listener."
       | Wildcard => VError "An error occurred in a wildcard listener."
       end.

Section Dispatch.

(** [code n a] is the body of the user function n called with a. *)
Variable code : nat → arg → prog.

(** The [emit] method as seen from inside one of its own calls. *)
Variable emit_rec : nat → string → value → emitter → outcome.

(** Runs a function body at emission depth d. *)
Fixpoint run (d : nat) (c : prog) (s : emitter) {struct c} : outcome :=
  match c with
  | Return => Some (Normal, s, [])
  | Throw v => Some (Thrown v, s, [])
  | CallOn eventName n k => andThen (method (on eventName (User n) s)) (run d k)
  | CallOnce eventName n k => andThen (method (once eventName n s)) (run d k)
  | CallOff eventName n k => andThen (method (off eventName (User n) s)) (run d k)
  | CallEmit eventName payload k => andThen (emit_rec (S d) eventName payload s) (run d k)
  | CallRemoveAll eventName k => run d k (removeAllListeners eventName s)
  | CallCount eventName k => run d (k (getListenerCount eventName s)) s
  | WriteEvent i event k => run d k (writeEvent i event s)
  | WritePayload i payload k => run d k (writePayload i payload s)
  | ReadData i k => run d (k (eventData s !! i)) s
  end.

(** Calls the user function n. *)
Definition apply (d : nat) (n : nat) (a : arg) (s : emitter) : outcome :=
  logged (EvRun d n a) (run d (code n a) s).

(** Calls a registered listener.  The closure of [once] calls the wrapped
    function and then, if that returned, removes itself. *)
Definition call (d : nat) (l : lid) (a : arg) (s : emitter) : outcome :=
  match l with
  | User n => apply d n a s
  | OnceWrapper _ eventName n =>
      andThen (apply d n a s) (λ s1, method (off eventName l s1))
  end.

(** [[...set].forEach((listener) => { try { listener(a) } catch (err) {
    this.emit('error', ...) } })] over the array [snapshot]. *)
Fixpoint forEach (d : nat) (k : kind) (a : arg) (snapshot : list lid) (s : emitter)
  {struct snapshot} : outcome :=
  match snapshot with
  | [] => Some (Normal, s, [])
  | listener :: rest =>
      andThen
        (logged (EvCall d listener (current k a s))
           (tryCatch (call d listener (current k a s) s)
              (λ err s1, logged (EvCaught d k err)
                           (emit_rec (S d) "error" (to_error k err) s1))))
        (forEach d k a rest)
  end.

(** First half of [emit]: the listeners of the event. *)
Definition notifySpecific (d : nat) (eventName : string) (payload : value)
  (s : emitter) : outcome :=
  match property eventName s with
  | Own eventListeners => forEach d Specific (ArgPayload payload) eventListeners s
  | Absent => Some (Normal, s, [])
  | Inherited => Some (Thrown is_not_iterable, s, [])
  end.

(** Second half of [emit]: the wildcard listeners, all handed the one
    object built here. *)
Definition notifyWildcard (d : nat) (eventName : string) (payload : value)
  (s : emitter) : outcome :=
  if decide (0 < length (wildcardListeners s)) then
    popped (forEach d Wildcard (ArgWild eventName payload) (wildcardListeners s)
              (push (eventName, payload) s))
  else Some (Normal, s, []).

(** The body of [emit]. *)
Definition emit_body (d : nat) (eventName : string) (payload : value)
  (s : emitter) : outcome :=
  logged (EvEmit d eventName payload)
    (andThen (notifySpecific d eventName payload s)
             (notifyWildcard d eventName payload)).

End Dispatch.

(** [emit(eventName, payload)] with a budget of nested [emit] calls. *)
Fixpoint emit (code : nat → arg → prog) (fuel : nat) (d : nat)
  (eventName : string) (payload : value) (s : emitter) : outcome :=
  match fuel with
  | 0 => None
  | S fuel' => emit_body code (emit code fuel') d eventName payload s
  end.

(** ** Notions used to state the properties *)

(** The [Set] an event name refers to: the wildcard set for ["*"], the
    set stored under the name otherwise (empty when there is none). *)
Definition registered (eventName : string) (s : emitter) : list lid :=
  if decide (eventName = "*") then wildcardListeners s
  else match listeners s !! eventName with
       | Some set => set
       | None => []
       end.

(** Every [Set] of the emitter is free of repetitions. *)
Definition wf (s : emitter) : Prop :=
  (∀ eventName set, listeners s !! eventName = Some set → NoDup set)
  ∧ NoDup (wildcardListeners s).

Definition ev_depth (e : event) : nat :=
  match e with
  | EvEmit d _ _ | EvCall d _ _ | EvRun d _ _ | EvCaught d _ _ => d
  end.

(** The listener calls made by the emission at depth d itself, in order,
    leaving out what nested emissions did. *)
Fixpoint direct (d : nat) (t : trace) : list (lid * arg) :=
  match t with
  | [] => []
  | EvCall d' l a :: t' =>
      if decide (d' = d) then (l, a) :: direct d t' else direct d t'
  | _ :: t' => direct d t'
  end.

(** The user functions that ran on behalf of the emission at depth d, each
    with what it was given, in order. *)
Fixpoint runs (d : nat) (t : trace) : list (nat * arg) :=
  match t with
  | [] => []
  | EvRun d' n a :: t' =>
      if decide (d' = d) then (n, a) :: runs d t' else runs d t'
  | _ :: t' => runs d t'
  end.

(** Every caught fault is followed at once by the matching call of
    [emit('error', ...)], one level deeper. *)
Fixpoint rerouted (t : trace) : Prop :=
  match t with
  | [] => True
  | e :: t' =>
      match e with
      | EvCaught d k err => head t' = Some (EvEmit (S d) "error" (to_error k err))
      | _ => True
      end ∧ rerouted t'
  end.

(** How often [x] occurs in a list. *)
Definition occurrences {A} `{EqDecision A} (x : A) (l : list A) : nat :=
  length (filter (λ y, y = x) l).

(** The user function a registered listener runs. *)
Definition wrapped (l : lid) : nat :=
  match l with
  | User n => n
  | OnceWrapper _ _ n => n
  end.

(** A function body that neither throws nor calls [emit], and calls [on],
    [once] and [off] with names that are not inherited ones only. *)
Fixpoint quiet (c : prog) : Prop :=
  match c with
  | Return => True
  | Throw _ => False
  | CallEmit _ _ _ => False
  | CallOn eventName _ k | CallOnce eventName _ k | CallOff eventName _ k =>
      inherited eventName = false ∧ quiet k
  | CallRemoveAll _ k | WriteEvent _ _ k | WritePayload _ _ k => quiet k
  | CallCount _ k => ∀ n, quiet (k n)
  | ReadData _ k => ∀ x, quiet (k x)
  end.

(** A body that cannot end by throwing: no [throw], and no call of a method
    with an inherited name, which would raise a [TypeError]. *)
Fixpoint no_throw (c : prog) : Prop :=
  match c with
  | Return => True
  | Throw _ => False
  | CallOn eventName _ k | CallOnce eventName _ k | CallOff eventName _ k
  | CallEmit eventName _ k => inherited eventName = false ∧ no_throw k
  | CallRemoveAll _ k | WriteEvent _ _ k | WritePayload _ _ k => no_throw k
  | CallCount _ k => ∀ n, no_throw (k n)
  | ReadData _ k => ∀ x, no_throw (k x)
  end.

(** A body that registers nothing and does not call [emit]; it may throw,
    unregister, read counts and use event objects. *)
Fixpoint detached (c : prog) : Prop :=
  match c with
  | Return | Throw _ => True
  | CallOn _ _ _ | CallOnce _ _ _ | CallEmit _ _ _ => False
  | CallOff _ _ k | CallRemoveAll _ k | WriteEvent _ _ k | WritePayload _ _ k =>
      detached k
  | CallCount _ k => ∀ n, detached (k n)
  | ReadData _ k => ∀ x, detached (k x)
  end.

(** A body that leaves the registrations alone; it may throw, call [emit],
    read counts and use event objects. *)
Fixpoint passive (c : prog) : Prop :=
  match c with
  | Return | Throw _ => True
  | CallOn _ _ _ | CallOnce _ _ _ | CallOff _ _ _ | CallRemoveAll _ _ => False
  | CallEmit _ _ k | WriteEvent _ _ k | WritePayload _ _ k => passive k
  | CallCount _ k => ∀ n, passive (k n)
  | ReadData _ k => ∀ x, passive (k x)
  end.

(** A body that assigns to no event object. *)
Fixpoint write_free (c : prog) : Prop :=
  match c with
  | Return | Throw _ => True
  | WriteEvent _ _ _ | WritePayload _ _ _ => False
  | CallOn _ _ k | CallOnce _ _ k | CallOff _ _ k | CallEmit _ _ k
  | CallRemoveAll _ k => write_free k
  | CallCount _ k => ∀ n, write_free (k n)
  | ReadData _ k => ∀ x, write_free (k x)
  end.

(** What a family of [emit]-like functions must satisfy for the loops built
    on it to behave: it completes normally unless the name is an inherited
    one without a set, in which case it throws at once; it logs nothing above
    its own depth, starts its log with its own entry, keeps the sets free of
    repetitions and re-routes every caught fault. *)
Definition sound (rec : nat → string → value → emitter → outcome) : Prop :=
  ∀ d eventName payload s c s' t,
    rec d eventName payload s = Some (c, s', t) →
    (property eventName s ≠ Inherited → c = Normal)
    ∧ (property eventName s = Inherited →
       c = Thrown is_not_iterable ∧ s' = s ∧ t = [EvEmit d eventName payload])
    ∧ Forall (λ e, d ≤ ev_depth e) t
    ∧ head t = Some (EvEmit d eventName payload)
    ∧ (wf s → wf s')
    ∧ rerouted t.

(** An [emit]-like function that keeps the property P of the emitter. *)
Definition keeps (P : emitter → Prop)
  (rec : nat → string → value → emitter → outcome) : Prop :=
  ∀ d eventName payload s c s' t,
    rec d eventName payload s = Some (c, s', t) → P s → P s'.

(** Every closure of [once] found in a set was built by an earlier call of
    [once]: its number is below [wrapperCount]. *)
Definition closures_known (s : emitter) : Prop :=
  (∀ eventName set i e n,
     listeners s !! eventName = Some set → OnceWrapper i e n ∈ set → i < wrapperCount s)
  ∧ (∀ i e n, OnceWrapper i e n ∈ wildcardListeners s → i < wrapperCount s).

(** Only client functions are registered, no closure of [once]. *)
Definition is_user (l : lid) : Prop :=
  match l with
  | User _ => True
  | OnceWrapper _ _ _ => False
  end.

Definition no_closures (s : emitter) : Prop :=
  (∀ eventName set, listeners s !! eventName = Some set → Forall is_user set)
  ∧ Forall is_user (wildcardListeners s).

(** The emitters a client can reach from [new TypeSafeEventEmitter()] with
    the public methods, registering its own functions. *)
Inductive reachable (code : nat → arg → prog) : emitter → Prop :=
| reach_new : reachable code new_emitter
| reach_on eventName n s :
    reachable code s → reachable code (on eventName (User n) s).2
| reach_once eventName n s :
    reachable code s → reachable code (once eventName n s).2
| reach_off eventName n s :
    reachable code s → reachable code (off eventName (User n) s).2
| reach_removeAllListeners eventName s :
    reachable code s → reachable code (removeAllListeners eventName s)
| reach_emit fuel eventName payload s c s' t :
    reachable code s →
    emit code fuel 0 eventName payload s = Some (c, s', t) →
    reachable code s'.

(** A listener that never throws: its function does not, and for a closure
    of [once] the name it calls [off] with is not an inherited one. *)
Definition calm (code : nat → arg → prog) (l : lid) : Prop :=
  (∀ a, no_throw (code (wrapped l) a))
  ∧ match l with
    | User _ => True
    | OnceWrapper _ eventName _ => inherited eventName = false
    end.

(** The listeners of ["error"] and the wildcard listeners never throw. *)
Definition safe (code : nat → arg → prog) (s : emitter) : Prop :=
  (∀ l, l ∈ registered "error" s → calm code l)
  ∧ (∀ l, l ∈ registered "*" s → calm code l).

(** Of a list of calls or runs, those made with a bare payload, in order. *)
Definition payload_calls {A} (calls : list (A * arg)) : list A :=
  omap (λ x, match x.2 with
             | ArgPayload _ => Some x.1
             | ArgWild _ _ => None
             end) calls.

(** The runs of the user function n in a log: depth and argument. *)
Definition runs_of (n : nat) (t : trace) : list (nat * arg) :=
  omap (λ e, match e with
             | EvRun d m a => if decide (m = n) then Some (d, a) else None
             | _ => None
             end) t.

(** A script: calls of [emit] one after the other, stopping at the first one
    that throws. *)
Fixpoint emits (code : nat → arg → prog) (fuel : nat)
  (calls : list (string * value)) (s : emitter) : outcome :=
  match calls with
  | [] => Some (Normal, s, [])
  | (eventName, payload) :: rest =>
      andThen (emit code fuel 0 eventName payload s) (emits code fuel rest)
  end.

(** Every closure of [once] found in a set satisfies Q. *)
Definition all_closures (Q : nat → string → nat → Prop) (s : emitter) : Prop :=
  (∀ eventName set i e n,
     listeners s !! eventName = Some set → OnceWrapper i e n ∈ set → Q i e n)
  ∧ (∀ i e n, OnceWrapper i e n ∈ wildcardListeners s → Q i e n).

(** No registered closure of [once] has captured an inherited name. *)
Definition closures_named (s : emitter) : Prop :=
  all_closures (λ _ e _, inherited e = false) s.

(** The second emitter has the registrations and the closure count of the
    first; its event objects may differ. *)
Definition same_registrations (s s' : emitter) : Prop :=
  listeners s' = listeners s
  ∧ wildcardListeners s' = wildcardListeners s
  ∧ wrapperCount s' = wrapperCount s.

(** ** Scenarios *)

(** Every function returns at once. *)
Definition silent : nat → arg → prog := λ _ _, Return.

(** Function 0 throws [fault], every other function returns. *)
Definition throwing (fault : value) : nat → arg → prog :=
  λ n _, match n with
         | 0 => Throw fault
         | _ => Return
         end.

(** Functions 0 and 1 are wildcard listeners. *)
Definition two_wildcards : emitter :=
  (on "*" (User 1) (on "*" (User 0) new_emitter).2).2.

(** Function 0 listens to ["z"] and to ["error"], function 1 to ["z"]. *)
Definition failing_error_listener : emitter :=
  (on "error" (User 0) (on "z" (User 1) (on "z" (User 0) new_emitter).2).2).2.

(** Function 0 is registered with [once] for ["x"]. *)
Definition once_x : emitter := (once "x" 0 new_emitter).2.

(** Function 0 registers function 1 as a wildcard listener, function 2
    removes the wildcard listener 3. *)
Definition meddling : nat → arg → prog :=
  λ n _, match n with
         | 0 => CallOn "*" 1 Return
         | 2 => CallOff "*" 3 Return
         | _ => Return
         end.

(** Function 0 listens to ["x"], no wildcard listener yet. *)
Definition adds_wildcard : emitter := (on "x" (User 0) new_emitter).2.

(** Function 2 listens to ["x"], function 3 is a wildcard listener. *)
Definition drops_wildcard : emitter :=
  (on "*" (User 3) (on "x" (User 2) new_emitter).2).2.

(** Function 0 listens to ["z"], function 1 to ["error"], function 2 is a
    wildcard listener. *)
Definition error_audience : emitter :=
  (on "*" (User 2) (on "error" (User 1) (on "z" (User 0) new_emitter).2).2).2.

(** Functions 1 and 2 listen to ["ping"], function 3 is a wildcard
    listener. *)
Definition ping_pong : emitter :=
  (on "*" (User 3) (on "ping" (User 2) (on "ping" (User 1) new_emitter).2).2).2.

(** Listeners under two names and a wildcard listener. *)
Definition populated : emitter :=
  (on "*" (User 3)
     (on "" (User 2) (on "y" (User 1) (on "x" (User 0) new_emitter).2).2).2).2.

(** [src/index.ts].  Function 0 is the first listener of ['user:created'],
    function 1 the listener given to [once], function 2 the wildcard listener,
    function 3 the ['error'] listener, function 4 the listener that throws.
    The other four only print. *)
Definition demo_code : nat → arg → prog :=
  λ n _, match n with
         | 4 => Throw (VError "Something went wrong in this specific listener!")
         | _ => Return
         end.

(** The emitter of the demo after its registrations (steps 3 to 6). *)
Definition demo_registered : emitter :=
  (on "user:created" (User 4)
     (on "error" (User 3)
        (on "*" (User 2)
           (once "user:deleted" 1
              (on "user:created" (User 0) new_emitter).2).2).2).2).2.

(** The four calls of [emit] of step 8; the payload objects are known by
    their references. *)
Definition demo_calls : list (string * value) :=
  [("app:start", VUndefined); ("user:created", VObj 101);
   ("user:deleted", VObj 202); ("user:deleted", VObj 303)].

(** Function 0 throws a string; function 2 throws a number when it is handed
    the event object of ["z"] and returns for any other event. *)
Definition fussy : nat → arg → prog :=
  λ n a, match n, a with
         | 0, _ => Throw (VStr "boom")
         | 2, ArgWild event _ =>
             if decide (event = "z") then Throw (VNum 7) else Return
         | _, _ => Return
         end.

(** Function 1 assigns to the payload field of the object it is handed. *)
Definition rewriting : nat → arg → prog :=
  λ n _, match n with
         | 1 => WritePayload 0 (VStr "changed") Return
         | _ => Return
         end.

(** Functions 1 and 2 are wildcard listeners. *)
Definition two_readers : emitter :=
  (on "*" (User 2) (on "*" (User 1) new_emitter).2).2.

(** Every function registers itself under a name that tells what it was
    handed. *)
Definition noting : nat → arg → prog :=
  λ n a, match a with
         | ArgPayload payload =>
             CallOn (if decide (payload = VNum 4) then "payload 4" else "other payload")
               n Return
         | ArgWild event payload =>
             CallOn (if decide (event = "ping") then "event ping" else "other event") n
               (if decide (payload = VNum 4) then Return
                else CallOn "payload of event is not 4" n Return)
         end.


(** Function 0 is registered for ["x"] with [on] and with [once]. *)
Definition on_and_once : emitter :=
  (once "x" 0 (on "x" (User 0) new_emitter).2).2.

(** Function 0, handed a payload, unregisters function 1 from ["x"] and
    registers function 2 for it; every other function handed a payload
    registers itself under a name that tells the payload. *)
Definition self_editing : nat → arg → prog :=
  λ n a, match n, a with
         | 0, ArgPayload _ => CallOff "x" 1 (CallOn "x" 2 Return)
         | _, ArgPayload payload =>
             CallOn (if decide (payload = VNum 4) then "payload 4" else "other payload")
               n Return
         | _, ArgWild _ _ => Return
         end.

(** Functions 0 and 1 listen to ["x"], function 3 is a wildcard listener. *)
Definition pair_x : emitter :=
  (on "*" (User 3) (on "x" (User 1) (on "x" (User 0) new_emitter).2).2).2.

(** ** Sets as lists *)

Lemma NoDup_Set_add l set : NoDup set → NoDup (Set_add l set).
Proof.
  intros Hnd. unfold Set_add. case_decide as Hin; [done|].
  apply NoDup_app. split_and!; [done| |apply NoDup_singleton].
  intros x Hx Hx'. apply list_elem_of_singleton in Hx'. by subst.
Qed.

Lemma NoDup_Set_delete l set : NoDup set → NoDup (Set_delete l set).
Proof. apply NoDup_filter. Qed.


Lemma Set_delete_absent l set : l ∉ set → Set_delete l set = set.
Proof.
  intros Hl. unfold Set_delete. induction set as [|x set IH]; [done|].
  apply not_elem_of_cons in Hl as [Hne Hl].
  rewrite filter_cons_True; [|congruence]. by rewrite IH.
Qed.

Lemma Set_delete_gone l set : l ∉ Set_delete l set.
Proof. unfold Set_delete. rewrite list_elem_of_filter. tauto. Qed.

Lemma length_Set_delete l set :
  NoDup set → l ∈ set → S (length (Set_delete l set)) = length set.
Proof.
  unfold Set_delete. induction 1 as [|x set Hx Hnd IH]; intros Hl.
  - by apply elem_of_nil in Hl.
  - destruct (decide (x = l)) as [->|Hne].
    + rewrite filter_cons_False; [|tauto]. simpl. f_equal.
      apply (f_equal length (Set_delete_absent l set Hx)).
    + rewrite filter_cons_True; [|done]. simpl. f_equal. apply IH.
      apply elem_of_cons in Hl as [?|?]; [congruence|done].
Qed.

Lemma elem_of_Set_add x l set : x ∈ Set_add l set ↔ x ∈ set ∨ x = l.
Proof.
  unfold Set_add. case_decide as Hl.
  - split; [by left | by intros [?| ->]].
  - by rewrite elem_of_app, list_elem_of_singleton.
Qed.

Lemma elem_of_Set_delete x l set : x ∈ Set_delete l set ↔ x ∈ set ∧ x ≠ l.
Proof. unfold Set_delete. rewrite list_elem_of_filter. tauto. Qed.

Lemma occurrences_absent {A} `{EqDecision A} (x : A) (l : list A) :
  x ∉ l → occurrences x l = 0.
Proof.
  unfold occurrences. induction l as [|y l IH]; intros Hx; [done|].
  apply not_elem_of_cons in Hx as [Hne Hx].
  rewrite filter_cons_False; [|congruence]. by apply IH.
Qed.

Lemma occurrences_NoDup {A} `{EqDecision A} (x : A) (l : list A) :
  NoDup l → x ∈ l → occurrences x l = 1.
Proof.
  induction 1 as [|y l Hy Hnd IH]; intros Hx.
  - by apply elem_of_nil in Hx.
  - unfold occurrences. destruct (decide (y = x)) as [->|Hne].
    + rewrite filter_cons_True; [|done]. simpl. f_equal.
      by apply occurrences_absent.
    + rewrite filter_cons_False; [|done]. apply IH.
      apply elem_of_cons in Hx as [?|?]; [congruence|done].
Qed.


(** ** What the methods return *)

Lemma inherited_star : inherited "*" = false.
Proof. reflexivity. Qed.

Lemma inherited_error : inherited "error" = false.
Proof. reflexivity. Qed.

Lemma property_not_inherited eventName s :
  inherited eventName = false → property eventName s ≠ Inherited.
Proof. unfold property. intros ->. by destruct (listeners s !! eventName). Qed.

Lemma property_error s : property "error" s ≠ Inherited.
Proof. by apply property_not_inherited. Qed.

Lemma property_own eventName s :
  property eventName s ≠ Inherited →
  property eventName s
  = match listeners s !! eventName with
    | Some set => Own set
    | None => Absent
    end.
Proof.
  unfold property. destruct (listeners s !! eventName); [done|].
  by destruct (inherited eventName).
Qed.

(** A method that throws leaves the emitter as it was. *)
Lemma on_Thrown eventName l s err s1 :
  on eventName l s = (Thrown err, s1) →
  err = add_is_not_a_function ∧ s1 = s ∧ eventName ≠ "*"
  ∧ property eventName s = Inherited.
Proof.
  unfold on. case_decide; [done|].
  destruct (property eventName s) eqn:E; try done. by intros [= <- <-].
Qed.

Lemma off_Thrown eventName l s err s1 :
  off eventName l s = (Thrown err, s1) →
  err = delete_is_not_a_function ∧ s1 = s ∧ eventName ≠ "*"
  ∧ property eventName s = Inherited.
Proof.
  unfold off. case_decide; [done|].
  destruct (property eventName s) eqn:E; try done. by intros [= <- <-].
Qed.

Lemma on_returns eventName l s :
  eventName = "*" ∨ property eventName s ≠ Inherited →
  (on eventName l s).1 = Normal.
Proof.
  unfold on. case_decide; [done|]. intros [?|Hp]; [done|].
  by destruct (property eventName s).
Qed.

Lemma off_returns eventName l s :
  eventName = "*" ∨ property eventName s ≠ Inherited →
  (off eventName l s).1 = Normal.
Proof.
  unfold off. case_decide; [done|]. intros [?|Hp]; [done|].
  by destruct (property eventName s).
Qed.

(** ** The emitter's sets stay free of repetitions *)

Lemma wf_cleared n data : wf (Emitter ∅ [] n data).
Proof.
  split; [|constructor]. intros ev set. cbn [listeners].
  by rewrite lookup_empty.
Qed.

Lemma wf_new_emitter : wf new_emitter.
Proof. apply wf_cleared. Qed.

Lemma wf_on eventName l s : wf s → wf (on eventName l s).2.
Proof.
  intros [Hmap Hwild]. unfold on, property. case_decide; [split; simpl; [done|]|].
  { by apply NoDup_Set_add. }
  destruct (listeners s !! eventName) as [set|] eqn:E;
    [|destruct (inherited eventName); [done|]]; split; simpl; try done.
  - intros ev set'. rewrite lookup_insert. case_decide.
    + intros [= <-]. apply NoDup_Set_add. by eapply Hmap.
    + apply Hmap.
  - intros ev set'. rewrite lookup_insert. case_decide.
    + intros [= <-]. apply NoDup_Set_add. constructor.
    + apply Hmap.
Qed.

Lemma wf_off eventName l s : wf s → wf (off eventName l s).2.
Proof.
  intros [Hmap Hwild]. unfold off, property. case_decide.
  - split; [done|]. by apply NoDup_Set_delete.
  - destruct (listeners s !! eventName) as [set|] eqn:E;
      [|by destruct (inherited eventName)].
    split; [|done]. intros ev set'. simpl. rewrite lookup_insert. case_decide.
    + intros [= <-]. apply NoDup_Set_delete. by eapply Hmap.
    + apply Hmap.
Qed.

Lemma wf_data s n data :
  wf s → wf (Emitter (listeners s) (wildcardListeners s) n data).
Proof. by intros [Hmap Hwild]. Qed.

Lemma wf_once eventName n s : wf s → wf (once eventName n s).2.
Proof. intros Hs. unfold once. apply wf_on. by apply wf_data. Qed.

Lemma wf_removeAllListeners eventName s : wf s → wf (removeAllListeners eventName s).
Proof.
  intros [Hmap Hwild].
  pose proof (wf_cleared (wrapperCount s) (eventData s)) as Hclear.
  unfold removeAllListeners. destruct eventName as [name|]; [|done].
  repeat case_decide; [done| |].
  - split; [done | constructor].
  - split; [|done]. intros ev set. simpl. rewrite lookup_delete.
    case_decide; [done | apply Hmap].
Qed.

(** ** Logs *)

Lemma direct_app d t1 t2 : direct d (t1 ++ t2) = direct d t1 ++ direct d t2.
Proof.
  induction t1 as [|e t1 IH]; [done|].
  destruct e; simpl; try done. case_decide; simpl; by rewrite IH.
Qed.

Lemma direct_deeper d t : Forall (λ e, S d ≤ ev_depth e) t → direct d t = [].
Proof.
  induction 1 as [|e t He _ IH]; [done|].
  destruct e; simpl in *; try done. rewrite decide_False; [done | lia].
Qed.

Lemma runs_app d t1 t2 : runs d (t1 ++ t2) = runs d t1 ++ runs d t2.
Proof.
  induction t1 as [|e t1 IH]; [done|].
  destruct e; simpl; try done. case_decide; simpl; by rewrite IH.
Qed.

Lemma runs_deeper d t : Forall (λ e, S d ≤ ev_depth e) t → runs d t = [].
Proof.
  induction 1 as [|e t He _ IH]; [done|].
  destruct e; simpl in *; try done. rewrite decide_False; [done | lia].
Qed.

Lemma Forall_depth_weaken d d' t :
  d ≤ d' → Forall (λ e, d' ≤ ev_depth e) t → Forall (λ e, d ≤ ev_depth e) t.
Proof. intros Hle Ht. eapply Forall_impl; [exact Ht|]. intros e. simpl. lia. Qed.

Lemma rerouted_app t1 t2 : rerouted t1 → rerouted t2 → rerouted (t1 ++ t2).
Proof.
  intros H1 H2. induction t1 as [|e t1 IH]; [done|].
  destruct H1 as [He H1]. simpl. split; [|by apply IH].
  destruct e; try done. destruct t1; [done | exact He].
Qed.

(** ** Inversion of the sequencing operators *)

Lemma andThen_Some r k c s' t :
  andThen r k = Some (c, s', t) →
  (∃ s1 t1 t2, r = Some (Normal, s1, t1) ∧ k s1 = Some (c, s', t2) ∧ t = t1 ++ t2)
  ∨ (∃ err, c = Thrown err ∧ r = Some (Thrown err, s', t)).
Proof.
  unfold andThen. destruct r as [[[[|err] s1] t1]|]; [|naive_solver|done].
  destruct (k s1) as [[[c2 s2] t2]|] eqn:Hk; [|done].
  intros [= <- <- <-]. left. by exists s1, t1, t2.
Qed.

Lemma tryCatch_Some r handler c s' t :
  tryCatch r handler = Some (c, s', t) →
  (c = Normal ∧ r = Some (Normal, s', t))
  ∨ (∃ err s1 t1 t2, r = Some (Thrown err, s1, t1)
                     ∧ handler err s1 = Some (c, s', t2) ∧ t = t1 ++ t2).
Proof.
  unfold tryCatch. destruct r as [[[[|err] s1] t1]|]; [naive_solver| |done].
  destruct (handler err s1) as [[[c2 s2] t2]|] eqn:Hh; [|done].
  intros [= <- <- <-]. right. by exists err, s1, t1, t2.
Qed.

Lemma logged_Some e r c s' t :
  logged e r = Some (c, s', t) → ∃ t', r = Some (c, s', t') ∧ t = e :: t'.
Proof.
  unfold logged. destruct r as [[[c1 s1] t1]|]; [|done].
  intros [= <- <- <-]. by exists t1.
Qed.

Lemma popped_Some r c s' t :
  popped r = Some (c, s', t) → ∃ s1, r = Some (c, s1, t) ∧ s' = pop s1.
Proof.
  unfold popped. destruct r as [[[c1 s1] t1]|]; [|done].
  intros [= <- <- <-]. by exists s1.
Qed.

(** A method followed by the rest of a body. *)
Lemma method_andThen_Some r k c s' t :
  andThen (method r) k = Some (c, s', t) →
  (r.1 = Normal ∧ k r.2 = Some (c, s', t))
  ∨ (∃ err, r.1 = Thrown err ∧ c = Thrown err ∧ s' = r.2 ∧ t = []).
Proof.
  destruct r as [[|err] s1]; unfold method; simpl.
  - destruct (k s1) as [[[c2 s2] t2]|]; [|done]. intros [= <- <- <-]. by left.
  - intros [= <- <- <-]. right. by exists err.
Qed.

Lemma pop_push data s : pop (push data s) = s.
Proof. by destruct s. Qed.

(** ** The loops of [emit], over any sound recursive call *)

Lemma wf_push data s : wf s → wf (push data s).
Proof. apply wf_data. Qed.

Lemma wf_pop s : wf s → wf (pop s).
Proof. apply wf_data. Qed.

Lemma wf_writeEvent i event s : wf s → wf (writeEvent i event s).
Proof. apply wf_data. Qed.

Lemma wf_writePayload i payload s : wf s → wf (writePayload i payload s).
Proof. apply wf_data. Qed.

Section Loops.

Variable code : nat → arg → prog.
Variable rec : nat → string → value → emitter → outcome.
Hypothesis rec_sound : sound rec.

Lemma rec_error_returns d payload s c s' t :
  rec d "error" payload s = Some (c, s', t) → c = Normal.
Proof. intros Hrec. apply rec_sound in Hrec as (Hc & _). apply Hc, property_error. Qed.

Lemma run_sound d c s c' s' t :
  run rec d c s = Some (c', s', t) →
  Forall (λ e, S d ≤ ev_depth e) t ∧ (wf s → wf s') ∧ rerouted t.
Proof.
  revert s t.
  induction c as [| |ev n k IH|ev n k IH|ev n k IH|ev p k IH|o k IH|ev k IH
                  |i e k IH|i p k IH|i k IH]; intros s t; simpl.
  - intros [= <- <- <-]. by split_and!.
  - intros [= <- <- <-]. by split_and!.
  - intros [[_ Hk]|(err & _ & _ & -> & ->)]%method_andThen_Some.
    + apply IH in Hk as (? & Hwf & ?). split_and!; [done| |done].
      intros. by apply Hwf, wf_on.
    + split_and!; [done| |done]. apply wf_on.
  - intros [[_ Hk]|(err & _ & _ & -> & ->)]%method_andThen_Some.
    + apply IH in Hk as (? & Hwf & ?). split_and!; [done| |done].
      intros. by apply Hwf, wf_once.
    + split_and!; [done| |done]. apply wf_once.
  - intros [[_ Hk]|(err & _ & _ & -> & ->)]%method_andThen_Some.
    + apply IH in Hk as (? & Hwf & ?). split_and!; [done| |done].
      intros. by apply Hwf, wf_off.
    + split_and!; [done| |done]. apply wf_off.
  - intros Hrun.
    apply andThen_Some in Hrun as [(s1 & t1 & t2 & Hrec & Hk & ->)|(err & -> & Hrec)].
    + apply rec_sound in Hrec as (_ & _ & Hd1 & _ & Hwf1 & Hr1).
      apply IH in Hk as (Hd2 & Hwf2 & Hr2).
      split_and!; [by apply Forall_app | tauto | by apply rerouted_app].
    + by apply rec_sound in Hrec as (_ & _ & Hd1 & _ & Hwf1 & Hr1).
  - intros Hrun. apply IH in Hrun as (? & Hwf & ?).
    split_and!; [done| |done]. intros. by apply Hwf, wf_removeAllListeners.
  - apply IH.
  - intros Hrun. apply IH in Hrun as (? & Hwf & ?).
    split_and!; [done| |done]. intros. by apply Hwf, wf_writeEvent.
  - intros Hrun. apply IH in Hrun as (? & Hwf & ?).
    split_and!; [done| |done]. intros. by apply Hwf, wf_writePayload.
  - apply IH.
Qed.

Lemma apply_sound d n a s c' s' t :
  apply code rec d n a s = Some (c', s', t) →
  direct d t = [] ∧ runs d t = [(n, a)]
  ∧ Forall (λ e, d ≤ ev_depth e) t ∧ (wf s → wf s') ∧ rerouted t.
Proof.
  unfold apply. intros Happ.
  apply logged_Some in Happ as (t' & Hrun & ->).
  apply run_sound in Hrun as (Hd & Hwf & Hr).
  split_and!; [| |constructor| |]; try done.
  - simpl. by apply direct_deeper.
  - simpl. rewrite decide_True by done. f_equal. by apply runs_deeper.
  - by apply Forall_depth_weaken with (S d); [lia|].
Qed.

Lemma call_sound d l a s c' s' t :
  call code rec d l a s = Some (c', s', t) →
  direct d t = [] ∧ runs d t = [(wrapped l, a)]
  ∧ Forall (λ e, d ≤ ev_depth e) t ∧ (wf s → wf s') ∧ rerouted t.
Proof.
  destruct l as [n|i ev n]; simpl; [apply apply_sound|].
  intros Hcall.
  apply andThen_Some in Hcall as [(s1 & t1 & t2 & Happ & Hoff & ->)|(err & -> & Happ)].
  - unfold method in Hoff. injection Hoff as <- <- <-. rewrite app_nil_r.
    apply apply_sound in Happ as (? & ? & ? & Hwf & ?).
    split_and!; try done. intros. by apply wf_off, Hwf.
  - by apply apply_sound in Happ.
Qed.

(** One round of a loop: the call of one listener and, when it threw, the
    nested [emit('error', ...)]. *)
Lemma round_sound d k a l s c s' t :
  tryCatch (call code rec d l a s)
    (λ err s1, logged (EvCaught d k err) (rec (S d) "error" (to_error k err) s1))
  = Some (c, s', t) →
  c = Normal
  ∧ direct d t = [] ∧ runs d t = [(wrapped l, a)]
  ∧ Forall (λ e, d ≤ ev_depth e) t ∧ (wf s → wf s') ∧ rerouted t.
Proof.
  intros Htry.
  apply tryCatch_Some in Htry
    as [[-> Hcall]|(err & s0 & tc & te & Hcall & Hcatch & ->)].
  - by apply call_sound in Hcall.
  - apply call_sound in Hcall as (Hdirc & Hrunc & Hdc & Hwfc & Hrc).
    apply logged_Some in Hcatch as (te' & Hrec & ->).
    pose proof (rec_error_returns _ _ _ _ _ _ Hrec) as ->.
    apply rec_sound in Hrec as (_ & _ & Hde & Hhead & Hwfe & Hre).
    split_and!.
    + done.
    + rewrite direct_app, Hdirc. simpl. by apply direct_deeper.
    + rewrite runs_app, Hrunc. simpl. by rewrite runs_deeper.
    + apply Forall_app. split; [done|]. constructor; [done|].
      by apply Forall_depth_weaken with (S d); [lia|].
    + tauto.
    + apply rerouted_app; [done|]. by split.
Qed.

Lemma forEach_sound d k a snapshot s c s' t :
  forEach code rec d k a snapshot s = Some (c, s', t) →
  c = Normal
  ∧ (direct d t).*1 = snapshot
  ∧ runs d t = map (λ x, (wrapped x.1, x.2)) (direct d t)
  ∧ (k = Specific → direct d t = map (λ l, (l, a)) snapshot)
  ∧ Forall (λ e, d ≤ ev_depth e) t
  ∧ (wf s → wf s')
  ∧ rerouted t.
Proof.
  revert s t. induction snapshot as [|l rest IH]; intros s t; simpl.
  { intros [= <- <- <-]. by split_and!. }
  intros Hloop.
  apply andThen_Some in Hloop as [(s1 & t1 & t2 & Hone & Hrest & ->)|(err & -> & Hone)];
    apply logged_Some in Hone as (t0 & Htry & ->);
    apply round_sound in Htry as (Hc & Hdir0 & Hrun0 & Hd0 & Hwf0 & Hr0); [|done].
  apply IH in Hrest as (-> & Hdir2 & Hrun2 & Hspec & Hd2 & Hwf2 & Hr2).
  split_and!; [done| | | | | |].
  - simpl. rewrite decide_True by done. rewrite direct_app, Hdir0. simpl.
    f_equal. exact Hdir2.
  - simpl. rewrite !decide_True by done.
    rewrite runs_app, direct_app, Hdir0, Hrun0, Hrun2. done.
  - intros ->. simpl. rewrite decide_True by done.
    by rewrite direct_app, Hdir0, Hspec.
  - constructor; [done|]. by apply Forall_app.
  - tauto.
  - split; [done|]. by apply rerouted_app.
Qed.

Lemma notifySpecific_sound d eventName payload s c s' t :
  notifySpecific code rec d eventName payload s = Some (c, s', t) →
  (property eventName s = Inherited ∧ c = Thrown is_not_iterable ∧ s' = s ∧ t = [])
  ∨ (property eventName s ≠ Inherited
     ∧ c = Normal
     ∧ direct d t = map (λ l, (l, ArgPayload payload)) (default [] (listeners s !! eventName))
     ∧ runs d t = map (λ l, (wrapped l, ArgPayload payload))
                      (default [] (listeners s !! eventName))
     ∧ Forall (λ e, d ≤ ev_depth e) t
     ∧ (wf s → wf s')
     ∧ rerouted t).
Proof.
  unfold notifySpecific.
  destruct (property eventName s) as [set| |] eqn:E.
  - intros Hloop. right. rewrite property_own in E by congruence.
    destruct (listeners s !! eventName) as [set'|]; [|done]. injection E as <-.
    apply forEach_sound in Hloop as (-> & _ & Hruns & Hdir & ? & ? & ?).
    rewrite Hruns, Hdir by done. split_and!; try done.
    simpl. by rewrite map_map.
  - intros [= <- <- <-]. by left.
  - intros [= <- <- <-]. right. rewrite property_own in E by congruence.
    destruct (listeners s !! eventName); [done|]. by split_and!.
Qed.

Lemma notifyWildcard_sound d eventName payload s c s' t :
  notifyWildcard code rec d eventName payload s = Some (c, s', t) →
  c = Normal
  ∧ (direct d t).*1 = wildcardListeners s
  ∧ runs d t = map (λ x, (wrapped x.1, x.2)) (direct d t)
  ∧ Forall (λ e, d ≤ ev_depth e) t
  ∧ (wf s → wf s')
  ∧ rerouted t.
Proof.
  unfold notifyWildcard. case_decide as Hsize.
  - intros (s1 & Hloop & ->)%popped_Some.
    apply forEach_sound in Hloop as (-> & ? & ? & _ & ? & Hwf & ?).
    split_and!; try done; intros; by apply wf_pop, Hwf, wf_push.
  - intros [= <- <- <-]. destruct (wildcardListeners s); [|simpl in Hsize; lia].
    by split_and!.
Qed.

(** The two halves of an [emit] that returns. *)
Lemma emit_body_phases d eventName payload s s' t :
  emit_body code rec d eventName payload s = Some (Normal, s', t) →
  ∃ s1 t1 t2,
    notifySpecific code rec d eventName payload s = Some (Normal, s1, t1)
    ∧ notifyWildcard code rec d eventName payload s1 = Some (Normal, s', t2)
    ∧ t = EvEmit d eventName payload :: t1 ++ t2.
Proof.
  unfold emit_body. intros Hbody.
  apply logged_Some in Hbody as (t' & Hseq & ->).
  apply andThen_Some in Hseq as [(s1 & t1 & t2 & H1 & H2 & ->)|(err & [=] & _)].
  by exists s1, t1, t2.
Qed.

Lemma emit_body_sound : sound (emit_body code rec).
Proof.
  intros d eventName payload s c s' t Hbody. unfold emit_body in Hbody.
  apply logged_Some in Hbody as (t' & Hseq & ->).
  apply andThen_Some in Hseq as [(s1 & t1 & t2 & H1 & H2 & ->)|(err & -> & H1)].
  - apply notifySpecific_sound in H1
      as [(_ & [=] & _)|(Hp & _ & _ & _ & Hd1 & Hwf1 & Hr1)].
    apply notifyWildcard_sound in H2 as (-> & _ & _ & Hd2 & Hwf2 & Hr2).
    split_and!; [done|done| |done|tauto|].
    + constructor; [done|]. by apply Forall_app.
    + split; [done|]. by apply rerouted_app.
  - apply notifySpecific_sound in H1 as [(Hp & [= ->] & -> & ->)|(_ & [=] & _)].
    split_and!; try done. by repeat constructor.
Qed.

End Loops.

Lemma emit_sound code fuel : sound (emit code fuel).
Proof.
  induction fuel as [|fuel IH]; [by intros d ev p s c s' t|].
  simpl. by apply emit_body_sound.
Qed.

(** ** The set of a name *)

Lemma registered_count eventName s :
  getListenerCount eventName s = length (registered eventName s).
Proof.
  unfold getListenerCount, registered, property. case_decide; [done|].
  destruct (listeners s !! eventName); [done|]. by destruct (inherited eventName).
Qed.

Lemma registered_specific eventName s :
  eventName ≠ "*" → registered eventName s = default [] (listeners s !! eventName).
Proof. intros Hne. unfold registered. by rewrite decide_False. Qed.

Lemma registered_data C s n data :
  registered C (Emitter (listeners s) (wildcardListeners s) n data) = registered C s.
Proof. done. Qed.

Lemma registered_on eventName l s :
  (on eventName l s).1 = Normal →
  registered eventName (on eventName l s).2 = Set_add l (registered eventName s).
Proof.
  unfold registered, on, property. case_decide; [done|].
  destruct (listeners s !! eventName) as [set|] eqn:E; simpl.
  - by rewrite lookup_insert_eq.
  - destruct (inherited eventName); [done|]. simpl. by rewrite lookup_insert_eq.
Qed.

Lemma registered_on_other C eventName l s :
  eventName ≠ C → registered C (on eventName l s).2 = registered C s.
Proof.
  intros Hne. unfold registered, on, property.
  destruct (decide (eventName = "*")) as [->|He]; simpl.
  - case_decide; [congruence | done].
  - destruct (listeners s !! eventName) as [set|];
      [|destruct (inherited eventName); [done|]]; simpl;
      (case_decide; [done|]); by rewrite lookup_insert_ne.
Qed.

Lemma registered_off eventName l s :
  (off eventName l s).1 = Normal →
  registered eventName (off eventName l s).2 = Set_delete l (registered eventName s).
Proof.
  unfold registered, off, property. case_decide; [done|].
  destruct (listeners s !! eventName) as [set|] eqn:E; simpl.
  - by rewrite lookup_insert_eq.
  - destruct (inherited eventName); [done|]. simpl. by rewrite E.
Qed.

Lemma registered_off_other C eventName l s :
  eventName ≠ C → registered C (off eventName l s).2 = registered C s.
Proof.
  intros Hne. unfold registered, off, property.
  destruct (decide (eventName = "*")) as [->|He]; simpl.
  - case_decide; [congruence | done].
  - destruct (listeners s !! eventName) as [set|] eqn:E;
      [|by destruct (inherited eventName)]. simpl.
    case_decide; [done|]. by rewrite lookup_insert_ne.
Qed.

(** Whether it returns or throws, [off] only takes listeners out. *)
Lemma registered_off_subseteq C eventName l s x :
  x ∈ registered C (off eventName l s).2 → x ∈ registered C s.
Proof.
  destruct (decide (eventName = C)) as [->|Hne]; [|by rewrite registered_off_other].
  pose proof (registered_off C l s) as Hoff.
  destruct (off C l s) as [[|err] s1] eqn:E; simpl in *.
  - rewrite Hoff by done. rewrite elem_of_Set_delete. tauto.
  - apply off_Thrown in E as (_ & -> & _). done.
Qed.

Lemma registered_once eventName n s :
  (once eventName n s).1 = Normal →
  registered eventName (once eventName n s).2
  = Set_add (OnceWrapper (wrapperCount s) eventName n) (registered eventName s).
Proof. unfold once. intros Hc. by rewrite registered_on. Qed.

Lemma registered_once_other C eventName n s :
  eventName ≠ C → registered C (once eventName n s).2 = registered C s.
Proof. intros Hne. unfold once. by rewrite registered_on_other. Qed.

Lemma registered_removeAllListeners C eventName s :
  registered C (removeAllListeners eventName s)
  = match eventName with
    | Some name =>
        if decide (name = "") then []
        else if decide (name = C) then [] else registered C s
    | None => []
    end.
Proof.
  assert (∀ n data, registered C (Emitter ∅ [] n data) = []) as Hclear.
  { intros n data. unfold registered. case_decide; [done|]. simpl.
    by rewrite lookup_empty. }
  unfold removeAllListeners. destruct eventName as [name|]; [|apply Hclear].
  case_decide; [apply Hclear|].
  unfold registered. destruct (decide (name = "*")) as [->|Hn]; simpl.
  - case_decide; subst; [by rewrite decide_True | by rewrite decide_False].
  - destruct (decide (C = "*")) as [->|HC]; [by rewrite decide_False|].
    rewrite lookup_delete. by repeat case_decide.
Qed.

Lemma wf_registered eventName s : wf s → NoDup (registered eventName s).
Proof.
  intros [Hmap Hwild]. unfold registered. case_decide; [done|].
  destruct (listeners s !! eventName) eqn:E; [by eapply Hmap | constructor].
Qed.

(** ** What one emission calls *)

(** The calls of an [emit] that returns: the listeners stored under the name
    when [emit] is entered, each run with the payload, then the wildcard
    listeners found when the first loop has ended. *)
Lemma emit_calls code fuel d eventName payload s s' t :
  emit code (S fuel) d eventName payload s = Some (Normal, s', t) →
  ∃ s1 t1 t2,
    notifySpecific code (emit code fuel) d eventName payload s = Some (Normal, s1, t1)
    ∧ notifyWildcard code (emit code fuel) d eventName payload s1 = Some (Normal, s', t2)
    ∧ t = EvEmit d eventName payload :: t1 ++ t2
    ∧ property eventName s ≠ Inherited
    ∧ direct d t1 = map (λ l, (l, ArgPayload payload)) (default [] (listeners s !! eventName))
    ∧ runs d t1 = map (λ l, (wrapped l, ArgPayload payload))
                      (default [] (listeners s !! eventName))
    ∧ (direct d t2).*1 = wildcardListeners s1
    ∧ runs d t2 = map (λ x, (wrapped x.1, x.2)) (direct d t2)
    ∧ direct d t = direct d t1 ++ direct d t2
    ∧ runs d t = runs d t1 ++ runs d t2
    ∧ (wf s → wf s1).
Proof.
  simpl. intros Hemit.
  apply emit_body_phases in Hemit as (s1 & t1 & t2 & H1 & H2 & ->).
  exists s1, t1, t2.
  destruct (notifySpecific_sound _ _ (emit_sound code fuel) _ _ _ _ _ _ _ H1)
    as [(_ & [=] & _)|(Hp & _ & Hd1 & Hr1 & _ & Hwf & _)].
  destruct (notifyWildcard_sound _ _ (emit_sound code fuel) _ _ _ _ _ _ _ H2)
    as (_ & Hd2 & Hr2 & _).
  split_and!; try done; simpl; [apply direct_app | apply runs_app].
Qed.

(** [emit] for an inherited name without a set throws at once. *)
Lemma emit_inherited code fuel d eventName payload s :
  property eventName s = Inherited →
  emit code (S fuel) d eventName payload s
  = Some (Thrown is_not_iterable, s, [EvEmit d eventName payload]).
Proof. intros Hp. simpl. unfold emit_body, notifySpecific. by rewrite Hp. Qed.

Lemma rerouted_lookup t i d k err :
  rerouted t → t !! i = Some (EvCaught d k err) →
  t !! S i = Some (EvEmit (S d) "error" (to_error k err)).
Proof.
  revert i. induction t as [|e t IH]; intros i Hr Hi; [done|].
  destruct Hr as [He Hr]. destruct i as [|i]; simpl in *.
  - injection Hi as ->. by destruct t; simplify_eq/=.
  - by apply IH.
Qed.

(** ** Properties kept by every method are kept by [emit] *)

Section Preserved.

Variable P : emitter → Prop.
Hypothesis P_on : ∀ eventName n s, P s → P (on eventName (User n) s).2.
Hypothesis P_once : ∀ eventName n s, P s → P (once eventName n s).2.
Hypothesis P_off : ∀ eventName l s, P s → P (off eventName l s).2.
Hypothesis P_removeAllListeners : ∀ eventName s, P s → P (removeAllListeners eventName s).
Hypothesis P_data :
  ∀ s data, P s → P (Emitter (listeners s) (wildcardListeners s) (wrapperCount s) data).

Lemma run_keeps rec d c s c' s' t :
  keeps P rec → run rec d c s = Some (c', s', t) → P s → P s'.
Proof.
  intros Hrec. revert s t.
  induction c as [| |ev n k IH|ev n k IH|ev n k IH|ev p k IH|o k IH|ev k IH
                  |i e k IH|i p k IH|i k IH]; intros s t; simpl.
  - by intros [= <- <- <-].
  - by intros [= <- <- <-].
  - intros [[_ Hk]|(err & _ & _ & -> & ->)]%method_andThen_Some; eauto.
  - intros [[_ Hk]|(err & _ & _ & -> & ->)]%method_andThen_Some; eauto.
  - intros [[_ Hk]|(err & _ & _ & -> & ->)]%method_andThen_Some; eauto.
  - intros Hrun Hs.
    apply andThen_Some in Hrun as [(s1 & t1 & t2 & H1 & Hk & _)|(err & _ & H1)]; eauto.
  - eauto.
  - eauto.
  - intros Hrun Hs. eapply IH; [exact Hrun|]. by apply P_data.
  - intros Hrun Hs. eapply IH; [exact Hrun|]. by apply P_data.
  - eauto.
Qed.

Lemma call_keeps code rec d l a s c' s' t :
  keeps P rec → call code rec d l a s = Some (c', s', t) → P s → P s'.
Proof.
  intros Hrec.
  assert (∀ n c1 s1 t1, apply code rec d n a s = Some (c1, s1, t1) → P s → P s1)
    as Happly.
  { intros n c1 s1 t1 Happ. apply logged_Some in Happ as (t0 & Hrun & _).
    by eapply run_keeps. }
  destruct l as [n|i ev n]; simpl; [apply Happly|].
  intros Hcall Hs.
  apply andThen_Some in Hcall as [(s1 & t1 & t2 & Happ & Hoff & _)|(err & _ & Happ)];
    [|eauto].
  unfold method in Hoff. injection Hoff as <- <- <-. eauto.
Qed.

Lemma forEach_keeps code rec d k a snapshot s c s' t :
  keeps P rec → forEach code rec d k a snapshot s = Some (c, s', t) → P s → P s'.
Proof.
  intros Hrec. revert s t. induction snapshot as [|l rest IH]; intros s t; simpl.
  { by intros [= <- <- <-]. }
  intros Hloop Hs.
  assert (∀ c1 s1 t1,
            tryCatch (call code rec d l (current k a s) s)
              (λ err s0, logged (EvCaught d k err)
                           (rec (S d) "error" (to_error k err) s0))
            = Some (c1, s1, t1) → P s1) as Hone.
  { intros c1 s1 t1 Htry.
    apply tryCatch_Some in Htry
      as [[_ Hcall]|(err & s0 & tc & te & Hcall & Hcatch & _)].
    - by eapply call_keeps.
    - apply logged_Some in Hcatch as (te' & Herr & _).
      eapply Hrec; [exact Herr|]. by eapply call_keeps. }
  apply andThen_Some in Hloop as [(s1 & t1 & t2 & H1 & Hrest & _)|(err & _ & H1)];
    apply logged_Some in H1 as (t0 & Htry & _); eauto.
Qed.

Lemma emit_body_keeps code rec : keeps P rec → keeps P (emit_body code rec).
Proof.
  intros Hrec d eventName payload s c s' t Hbody Hs.
  unfold emit_body in Hbody. apply logged_Some in Hbody as (t0 & Hseq & _).
  assert (∀ c1 s1 t1, notifySpecific code rec d eventName payload s = Some (c1, s1, t1)
                      → P s1) as H1.
  { unfold notifySpecific. intros c1 s1 t1.
    destruct (property eventName s); [|by intros [= <- <- <-]..].
    intros Hloop. by eapply forEach_keeps. }
  apply andThen_Some in Hseq as [(s1 & t1 & t2 & Hspec & Hwild & _)|(err & _ & Hspec)];
    [|eauto].
  unfold notifyWildcard in Hwild. case_decide.
  - apply popped_Some in Hwild as (s2 & Hloop & ->). apply P_data.
    eapply forEach_keeps; [done|exact Hloop|]. apply P_data. eauto.
  - injection Hwild as <- <- <-. eauto.
Qed.

Lemma emit_keeps code fuel : keeps P (emit code fuel).
Proof.
  induction fuel as [|fuel IH]; [by intros d ev p s c s' t|].
  simpl. by apply emit_body_keeps.
Qed.

End Preserved.

(** ** Fault isolation and its limit *)

Lemma throwing_error_listener_never_returns fault fuel d payload :
  emit (throwing fault) fuel d "error" payload failing_error_listener = None.
Proof.
  revert d payload. induction fuel as [|fuel IH]; intros d payload; [done|].
  cbn [emit]. unfold emit_body, notifySpecific.
  replace (property "error" failing_error_listener) with (Own [User 0])
    by (by vm_compute).
  cbn [forEach call apply throwing run logged tryCatch current].
  by rewrite IH.
Qed.

(** C1. Two wildcard listeners.  When both return, [emit("x", 1)] calls the
    first and then the second.  When the first throws whenever it is called,
    [emit("x", 1)] catches its fault and calls [emit('error', ...)], which
    calls the same wildcard listener again, and so on without end: no budget
    lets the call return, so the second wildcard listener is never called for
    ["x"] and the fault is not contained. *)
Theorem C1_throwing_wildcard_listener_never_returns :
  (direct 0 <$> (snd <$> emit silent 1 0 "x" (VNum 1) two_wildcards)
   = Some [(User 0, ArgWild "x" (VNum 1)); (User 1, ArgWild "x" (VNum 1))])
  ∧ ∀ fuel, emit (throwing (VError "boom")) fuel 0 "x" (VNum 1) two_wildcards = None.
Proof.
  split; [by vm_compute|].
  assert (∀ fuel d eventName payload s,
            inherited eventName = false →
            listeners s = ∅ → wildcardListeners s = [User 0; User 1] →
            emit (throwing (VError "boom")) fuel d eventName payload s = None)
    as Hloop; [|intros fuel; by apply Hloop].
  induction fuel as [|fuel IH]; intros d eventName payload s Hname Hmap Hwild; [done|].
  cbn [emit]. unfold emit_body, notifySpecific, notifyWildcard, property.
  rewrite Hmap, lookup_empty, Hname. cbn [andThen]. rewrite Hwild.
  rewrite decide_True by (simpl; lia).
  cbn [forEach call apply throwing run logged tryCatch current push eventData].
  by rewrite IH.
Qed.

(** C5. A listener of ["z"] throws and the listener of ["error"] throws as
    well: the fault of the ["error"] listener is sent to ["error"] again, with
    no limit on the number of hops, and [emit("z", 1)] never returns. *)
Theorem C5_failing_error_listener_recursion_unbounded :
  ∀ fuel, emit (throwing (VStr "boom")) fuel 0 "z" (VNum 1) failing_error_listener = None.
Proof.
  intros [|fuel]; [done|].
  cbn [emit]. unfold emit_body, notifySpecific.
  replace (property "z" failing_error_listener) with (Own [User 0; User 1])
    by (by vm_compute).
  cbn [forEach call apply throwing run logged tryCatch current].
  by rewrite throwing_error_listener_never_returns.
Qed.

(** ** One-shot listeners *)

(** C3. [once("x", L)].  With an [L] that returns, the first [emit("x", 1)]
    leaves no listener for ["x"].  With an [L] that throws, the closure is
    still registered after the first [emit("x", 1)], [getListenerCount("x")]
    is still 1, and [emit("x", 2)] runs [L] a second time. *)
Theorem C3_once_wrapper_survives_throwing_listener :
  (getListenerCount "x" <$> ((λ r, r.1.2) <$> emit silent 1 0 "x" (VNum 1) once_x)
   = Some 0)
  ∧ ∃ s1 t1 s2 t2,
    emit (throwing (VStr "boom")) 2 0 "x" (VNum 1) once_x = Some (Normal, s1, t1)
    ∧ registered "x" s1 = [OnceWrapper 0 "x" 0]
    ∧ getListenerCount "x" s1 = 1
    ∧ emit (throwing (VStr "boom")) 2 0 "x" (VNum 2) s1 = Some (Normal, s2, t2)
    ∧ t2 = [EvEmit 0 "x" (VNum 2);
            EvCall 0 (OnceWrapper 0 "x" 0) (ArgPayload (VNum 2));
            EvRun 0 0 (ArgPayload (VNum 2));
            EvCaught 0 Specific (VStr "boom");
            EvEmit 1 "error" (VError "An error occurred in a listener.")].
Proof.
  split; [by vm_compute|].
  eexists _, _, _, _. split; [vm_compute; reflexivity|].
  split_and!; vm_compute; reflexivity.
Qed.

(** ** Clearing *)

(** C10. [removeAllListeners("")] does what [removeAllListeners()] does: it
    empties every set, and every count is 0 afterwards. *)
Theorem C10_removeAllListeners_empty_name s :
  removeAllListeners (Some "") s = removeAllListeners None s
  ∧ ∀ eventName, getListenerCount eventName (removeAllListeners (Some "") s) = 0.
Proof.
  split; [done|]. intros eventName.
  rewrite registered_count, registered_removeAllListeners. done.
Qed.

(** ** Snapshots *)

(** C2, as stated, fails: the listener of ["x"] registers function 1 as a
    wildcard listener while it runs, and function 1, absent from the wildcard
    set when [emit] was entered, receives this very emission. *)
Lemma C2_counterexample :
  ∃ s' t,
    emit meddling 1 0 "x" (VNum 1) adds_wildcard = Some (Normal, s', t)
    ∧ (User 1 ∉ wildcardListeners adds_wildcard)
    ∧ (User 1, ArgWild "x" (VNum 1)) ∈ direct 0 t
    ∧ direct 0 t ≠
        (map (λ l, (l, ArgPayload (VNum 1))) (default [] (listeners adds_wildcard !! "x"))
         ++ map (λ l, (l, ArgWild "x" (VNum 1))) (wildcardListeners adds_wildcard)).
Proof.
  eexists _, _. split; [vm_compute; reflexivity|].
  split_and!.
  - by apply not_elem_of_nil.
  - vm_compute. apply elem_of_cons. right. by apply list_elem_of_singleton.
  - by vm_compute.
Qed.

(** C2, amended.  Each loop of [emit] runs over a copy taken when that loop
    starts.  The listeners called with the payload are those stored under the
    name when [emit] is entered; the wildcard listeners called are those of the
    wildcard set as it is when the first loop has ended.  What a listener
    registers or removes changes neither the loop it is called from nor a loop
    that has ended, but a listener of the first loop does change who the
    second loop reaches.  The one call of [emit] that runs no loop is the one
    for an inherited name without a set: it throws before any listener is
    called. *)
Theorem C2_each_loop_runs_over_its_own_snapshot code fuel d eventName payload s c s' t :
  emit code (S fuel) d eventName payload s = Some (c, s', t) →
  (property eventName s ≠ Inherited →
   c = Normal
   ∧ ∃ s1 t1 t2,
       notifySpecific code (emit code fuel) d eventName payload s = Some (Normal, s1, t1)
       ∧ notifyWildcard code (emit code fuel) d eventName payload s1
         = Some (Normal, s', t2)
       ∧ t = EvEmit d eventName payload :: t1 ++ t2
       ∧ (direct d t1).*1 = default [] (listeners s !! eventName)
       ∧ (direct d t2).*1 = wildcardListeners s1)
  ∧ (property eventName s = Inherited →
     c = Thrown is_not_iterable ∧ s' = s ∧ t = [EvEmit d eventName payload]).
Proof.
  intros Hemit. split.
  - intros Hp. assert (c = Normal) as ->.
    { apply (emit_sound code (S fuel)) in Hemit as (Hc & _). by apply Hc. }
    split; [done|].
    apply emit_calls in Hemit
      as (s1 & t1 & t2 & H1 & H2 & -> & _ & Hd1 & _ & Hd2 & _).
    exists s1, t1, t2. split_and!; try done.
    rewrite Hd1. clear. induction (default [] _) as [|l set IH]; [done|].
    simpl. by f_equal.
  - intros Hp. rewrite emit_inherited in Hemit by done. by injection Hemit as <- <- <-.
Qed.

Lemma C2_each_loop_runs_over_its_own_snapshot_witness :
  emit meddling 1 0 "x" (VNum 1) drops_wildcard
  = Some (Normal, (off "*" (User 3) drops_wildcard).2,
          [EvEmit 0 "x" (VNum 1); EvCall 0 (User 2) (ArgPayload (VNum 1));
           EvRun 0 2 (ArgPayload (VNum 1))])
  ∧ property "x" drops_wildcard ≠ Inherited
  ∧ ∃ s1 t1 t2,
      notifySpecific meddling (emit meddling 0) 0 "x" (VNum 1) drops_wildcard
      = Some (Normal, s1, t1)
      ∧ notifyWildcard meddling (emit meddling 0) 0 "x" (VNum 1) s1
        = Some (Normal, (off "*" (User 3) drops_wildcard).2, t2)
      ∧ [EvEmit 0 "x" (VNum 1); EvCall 0 (User 2) (ArgPayload (VNum 1));
         EvRun 0 2 (ArgPayload (VNum 1))]
        = EvEmit 0 "x" (VNum 1) :: t1 ++ t2
      ∧ (direct 0 t1).*1 = default [] (listeners drops_wildcard !! "x")
      ∧ (direct 0 t2).*1 = wildcardListeners s1.
Proof.
  split; [vm_compute; reflexivity|]. split; [by vm_compute|].
  edestruct (C2_each_loop_runs_over_its_own_snapshot meddling 0 0 "x" (VNum 1)
               drops_wildcard) as [Hloops _]; [vm_compute; reflexivity|].
  apply Hloops. by vm_compute.
Defined.

(** ** Rounds of a loop *)

Section Rounds.

Variable code : nat → arg → prog.
Variable rec : nat → string → value → emitter → outcome.
Hypothesis rec_sound : sound rec.

(** A loop over [pre ++ post] is the loop over [pre], then the loop over
    [post] from where the first one ended. *)
Lemma forEach_app d k a pre post s c s' t :
  forEach code rec d k a (pre ++ post) s = Some (c, s', t) →
  ∃ s0 t0 t',
    forEach code rec d k a pre s = Some (Normal, s0, t0)
    ∧ forEach code rec d k a post s0 = Some (c, s', t')
    ∧ t = t0 ++ t'.
Proof.
  revert s t. induction pre as [|l pre IH]; intros s t Hloop.
  { by exists s, [], t. }
  cbn [app forEach] in *.
  apply andThen_Some in Hloop as [(s1 & t1 & t2 & Hone & Hrest & ->)|(err & -> & Hone)].
  - apply IH in Hrest as (s0 & t0 & t' & Hpre & Hpost & ->).
    exists s0, (t1 ++ t0), t'. rewrite Hone. cbn [andThen]. rewrite Hpre.
    by rewrite (assoc_L (++)).
  - apply logged_Some in Hone as (t0 & Htry & _).
    by apply (round_sound code rec rec_sound) in Htry as (? & _).
Qed.

(** The round of a listener whose call throws. *)
Lemma forEach_thrown d k a l post s c s' t fault sc tc :
  forEach code rec d k a (l :: post) s = Some (c, s', t) →
  call code rec d l (current k a s) s = Some (Thrown fault, sc, tc) →
  ∃ s1 te t',
    rec (S d) "error" (to_error k fault) sc = Some (Normal, s1, te)
    ∧ forEach code rec d k a post s1 = Some (c, s', t')
    ∧ t = EvCall d l (current k a s) :: tc ++ EvCaught d k fault :: te ++ t'.
Proof.
  intros Hloop Hcall. cbn [forEach] in Hloop. rewrite Hcall in Hloop.
  cbn [tryCatch] in Hloop.
  destruct (rec (S d) "error" (to_error k fault) sc) as [[[ce s1] te]|] eqn:Hrec;
    [|done].
  pose proof (rec_error_returns rec rec_sound _ _ _ _ _ _ Hrec) as ->.
  cbn [logged andThen] in Hloop.
  destruct (forEach code rec d k a post s1) as [[[c2 s2] t2]|] eqn:Hpost; [|done].
  injection Hloop as <- <- <-. exists s1, te, t2. split_and!; [done..|].
  simpl. by rewrite <- (assoc_L (++)).
Qed.

(** The first listener of a loop is handed the object as the loop found
    it. *)
Lemma forEach_first d k a l rest s c s' t :
  forEach code rec d k a (l :: rest) s = Some (c, s', t) →
  ∃ calls, direct d t = (l, current k a s) :: calls.
Proof.
  intros Hloop. cbn [forEach] in Hloop.
  apply andThen_Some in Hloop as [(s1 & t1 & t2 & Hone & _ & ->)|(err & _ & Hone)];
    apply logged_Some in Hone as (t0 & _ & ->); simpl; rewrite decide_True by done;
    eauto.
Qed.

End Rounds.

(** The two loops of an [emit] that returns. *)
Lemma emit_loops code fuel d C payload s s' t :
  emit code (S fuel) d C payload s = Some (Normal, s', t) →
  ∃ s1 s2 t1 t2,
    forEach code (emit code fuel) d Specific (ArgPayload payload)
      (default [] (listeners s !! C)) s = Some (Normal, s1, t1)
    ∧ forEach code (emit code fuel) d Wildcard (ArgWild C payload)
        (wildcardListeners s1) (push (C, payload) s1) = Some (Normal, s2, t2)
    ∧ s' = pop s2
    ∧ t = EvEmit d C payload :: t1 ++ t2.
Proof.
  intros Hemit.
  apply emit_calls in Hemit as (s1 & t1 & t2 & H1 & H2 & -> & Hp & _).
  unfold notifySpecific in H1. rewrite property_own in H1 by done.
  unfold notifyWildcard in H2. case_decide as Hsize.
  - apply popped_Some in H2 as (s2 & H2 & ->). exists s1, s2, t1, t2.
    split_and!; try done. by destruct (listeners s !! C).
  - injection H2 as <- <-. exists s1, (push (C, payload) s1), t1, [].
    destruct (wildcardListeners s1); [|simpl in Hsize; lia].
    rewrite pop_push. split_and!; try done. by destruct (listeners s !! C).
Qed.

(** ** Re-routing of faults *)

(** C4, as stated, fails: a listener of ["z"] throws the string ["boom"], and
    what the ["error"] listener and the wildcard listener receive is a new
    [Error] with a fixed message.  The same value is delivered when the thrown
    string is ["bang"]: the caught fault is not carried. *)
Lemma C4_counterexample :
  let delivered fault :=
    (λ r, direct 1 r.2) <$> emit (throwing fault) 2 0 "z" (VNum 1) error_audience in
  delivered (VStr "boom")
  = Some [(User 1, ArgPayload (VError "An error occurred in a listener."));
          (User 2, ArgWild "error" (VError "An error occurred in a listener."))]
  ∧ delivered (VStr "bang") = delivered (VStr "boom")
  ∧ VStr "bang" ≠ VStr "boom".
Proof. split_and!; [by vm_compute | by vm_compute | done]. Qed.

(** C4, amended.  An [emit] that returns has run its two loops, the first
    over the listeners of the name and the second over the wildcard
    listeners.  In either loop, at whatever place a listener stands, when its
    call throws a fault the loop next calls [emit] itself, one level deeper,
    for ["error"], and goes on with the listeners that follow once that call
    has returned.  The payload of that call is the fault when it is an
    [Error]; otherwise it is a new [Error] whose message is fixed by the loop
    ("An error occurred in a listener." or "An error occurred in a wildcard
    listener.") and which does not carry the fault.  In the log, every caught
    fault is followed at once by the entry of that call. *)
Theorem C4_thrown_faults_are_emitted_as_error code fuel :
  (∀ d C payload s s' t,
     emit code (S fuel) d C payload s = Some (Normal, s', t) →
     (∃ s1 s2 t1 t2,
        forEach code (emit code fuel) d Specific (ArgPayload payload)
          (default [] (listeners s !! C)) s = Some (Normal, s1, t1)
        ∧ forEach code (emit code fuel) d Wildcard (ArgWild C payload)
            (wildcardListeners s1) (push (C, payload) s1) = Some (Normal, s2, t2)
        ∧ s' = pop s2
        ∧ t = EvEmit d C payload :: t1 ++ t2)
     ∧ ∀ i d' k fault,
         t !! i = Some (EvCaught d' k fault) →
         t !! S i = Some (EvEmit (S d') "error" (to_error k fault)))
  ∧ (∀ d k a pre l post s c s' t,
       forEach code (emit code fuel) d k a (pre ++ l :: post) s = Some (c, s', t) →
       ∃ s0 t0,
         forEach code (emit code fuel) d k a pre s = Some (Normal, s0, t0)
         ∧ ∀ fault sc tc,
             call code (emit code fuel) d l (current k a s0) s0
             = Some (Thrown fault, sc, tc) →
             ∃ s1 te t',
               emit code fuel (S d) "error"
                 (if is_error fault then fault
                  else match k with
                       | Specific => VError "An error occurred in a listener."
                       | Wildcard => VError "An error occurred in a wildcard listener."
                       end) sc = Some (Normal, s1, te)
               ∧ forEach code (emit code fuel) d k a post s1 = Some (c, s', t')
               ∧ t = t0 ++ EvCall d l (current k a s0) :: tc
                        ++ EvCaught d k fault :: te ++ t').
Proof.
  split.
  - intros d C payload s s' t Hemit. split; [by apply emit_loops|].
    intros i d' k fault Hi.
    apply emit_sound in Hemit as (_ & _ & _ & _ & _ & Hr).
    by apply (rerouted_lookup t i d' k fault).
  - intros d k a pre l post s c s' t Hloop.
    apply forEach_app in Hloop as (s0 & t0 & t' & Hpre & Hpost & ->);
      [|apply emit_sound].
    exists s0, t0. split; [done|]. intros fault sc tc Hcall.
    destruct (forEach_thrown _ _ (emit_sound code fuel) _ _ _ _ _ _ _ _ _ _ _ _
                Hpost Hcall) as (s1 & te & t'' & Herr & Hrest & ->).
    by exists s1, te, t''.
Qed.

Lemma C4_thrown_faults_are_emitted_as_error_witness :
  emit fussy 2 0 "z" (VNum 1) error_audience
  = Some (Normal, error_audience,
          [EvEmit 0 "z" (VNum 1);
           EvCall 0 (User 0) (ArgPayload (VNum 1)); EvRun 0 0 (ArgPayload (VNum 1));
           EvCaught 0 Specific (VStr "boom");
           EvEmit 1 "error" (VError "An error occurred in a listener.");
           EvCall 1 (User 1) (ArgPayload (VError "An error occurred in a listener."));
           EvRun 1 1 (ArgPayload (VError "An error occurred in a listener."));
           EvCall 1 (User 2) (ArgWild "error" (VError "An error occurred in a listener."));
           EvRun 1 2 (ArgWild "error" (VError "An error occurred in a listener."));
           EvCall 0 (User 2) (ArgWild "z" (VNum 1)); EvRun 0 2 (ArgWild "z" (VNum 1));
           EvCaught 0 Wildcard (VNum 7);
           EvEmit 1 "error" (VError "An error occurred in a wildcard listener.");
           EvCall 1 (User 1)
             (ArgPayload (VError "An error occurred in a wildcard listener."));
           EvRun 1 1 (ArgPayload (VError "An error occurred in a wildcard listener."));
           EvCall 1 (User 2)
             (ArgWild "error" (VError "An error occurred in a wildcard listener."));
           EvRun 1 2
             (ArgWild "error" (VError "An error occurred in a wildcard listener."))])
  ∧ (∃ s1 te,
       emit fussy 1 1 "error" (VError "An error occurred in a listener.") error_audience
       = Some (Normal, s1, te)
       ∧ length te = 5)
  ∧ (∃ s1 te,
       emit fussy 1 1 "error" (VError "An error occurred in a wildcard listener.")
         (push ("z", VNum 1) error_audience)
       = Some (Normal, s1, te)
       ∧ length te = 5).
Proof.
  destruct (C4_thrown_faults_are_emitted_as_error fussy 1) as [Hemit Hloop].
  assert (emit fussy 2 0 "z" (VNum 1) error_audience
          = Some (Normal, error_audience,
                  [EvEmit 0 "z" (VNum 1);
                   EvCall 0 (User 0) (ArgPayload (VNum 1));
                   EvRun 0 0 (ArgPayload (VNum 1));
                   EvCaught 0 Specific (VStr "boom");
                   EvEmit 1 "error" (VError "An error occurred in a listener.");
                   EvCall 1 (User 1)
                     (ArgPayload (VError "An error occurred in a listener."));
                   EvRun 1 1 (ArgPayload (VError "An error occurred in a listener."));
                   EvCall 1 (User 2)
                     (ArgWild "error" (VError "An error occurred in a listener."));
                   EvRun 1 2
                     (ArgWild "error" (VError "An error occurred in a listener."));
                   EvCall 0 (User 2) (ArgWild "z" (VNum 1));
                   EvRun 0 2 (ArgWild "z" (VNum 1));
                   EvCaught 0 Wildcard (VNum 7);
                   EvEmit 1 "error" (VError "An error occurred in a wildcard listener.");
                   EvCall 1 (User 1)
                     (ArgPayload (VError "An error occurred in a wildcard listener."));
                   EvRun 1 1
                     (ArgPayload (VError "An error occurred in a wildcard listener."));
                   EvCall 1 (User 2)
                     (ArgWild "error"
                        (VError "An error occurred in a wildcard listener."));
                   EvRun 1 2
                     (ArgWild "error"
                        (VError "An error occurred in a wildcard listener."))]))
    as Hrun by (vm_compute; reflexivity).
  split; [exact Hrun|].
  destruct (Hemit _ _ _ _ _ _ Hrun) as [(s1 & s2 & t1 & t2 & H1 & H2 & _ & _) _].
  change (default [] (listeners error_audience !! "z")) with ([] ++ User 0 :: []) in H1.
  destruct (Hloop _ _ _ _ _ _ _ _ _ _ H1) as (s0 & t0 & [= <- <-] & Hcat).
  destruct (Hcat (VStr "boom") error_audience [EvRun 0 0 (ArgPayload (VNum 1))]
              eq_refl) as (s1' & te & t' & Herr & _ & _).
  split.
  { exists s1', te. split; [exact Herr|].
    vm_compute in Herr. by injection Herr as _ <-. }
  assert (s1 = error_audience) as ->.
  { vm_compute in H1. by injection H1 as <- _. }
  change (wildcardListeners error_audience) with ([] ++ User 2 :: []) in H2.
  destruct (Hloop _ _ _ _ _ _ _ _ _ _ H2) as (s0' & t0' & [= <- <-] & Hwild).
  destruct (Hwild (VNum 7) (push ("z", VNum 1) error_audience)
              [EvRun 0 2 (ArgWild "z" (VNum 1))] eq_refl)
    as (s1'' & te' & t'' & Herr' & _ & _).
  exists s1'', te'. split; [exact Herr'|].
  vm_compute in Herr'. by injection Herr' as _ <-.
Defined.

(** ** Event objects that nobody assigns to *)

Section Unwritten.

Variable code : nat → arg → prog.
Hypothesis code_write_free : ∀ n a, write_free (code n a).
Variable rec : nat → string → value → emitter → outcome.
Hypothesis rec_data :
  ∀ d eventName payload s c s' t,
    rec d eventName payload s = Some (c, s', t) → eventData s' = eventData s.

Lemma eventData_on eventName l s : eventData (on eventName l s).2 = eventData s.
Proof. unfold on. case_decide; [done|]. by destruct (property eventName s). Qed.

Lemma eventData_off eventName l s : eventData (off eventName l s).2 = eventData s.
Proof. unfold off. case_decide; [done|]. by destruct (property eventName s). Qed.

Lemma eventData_once eventName n s : eventData (once eventName n s).2 = eventData s.
Proof. unfold once. by rewrite eventData_on. Qed.

Lemma eventData_removeAllListeners eventName s :
  eventData (removeAllListeners eventName s) = eventData s.
Proof. unfold removeAllListeners. destruct eventName; [|done]. by repeat case_decide. Qed.

Lemma run_unwritten d c s c' s' t :
  write_free c → run rec d c s = Some (c', s', t) → eventData s' = eventData s.
Proof.
  revert s t.
  induction c as [| |ev n k IH|ev n k IH|ev n k IH|ev p k IH|o k IH|ev k IH
                  |i e k IH|i p k IH|i k IH]; intros s t Hc; simpl in *; try done.
  - by intros [= _ <- _].
  - by intros [= _ <- _].
  - intros [[_ Hk]|(err & _ & _ & -> & _)]%method_andThen_Some;
      [apply IH in Hk as ->; [|done]|]; apply eventData_on.
  - intros [[_ Hk]|(err & _ & _ & -> & _)]%method_andThen_Some;
      [apply IH in Hk as ->; [|done]|]; apply eventData_once.
  - intros [[_ Hk]|(err & _ & _ & -> & _)]%method_andThen_Some;
      [apply IH in Hk as ->; [|done]|]; apply eventData_off.
  - intros Hrun.
    apply andThen_Some in Hrun as [(s1 & t1 & t2 & H1 & Hk & _)|(err & _ & H1)].
    + apply IH in Hk as ->; [|done]. by eapply rec_data.
    + by eapply rec_data.
  - intros Hrun. apply IH in Hrun as ->; [|done]. apply eventData_removeAllListeners.
  - by apply IH.
  - by apply IH.
Qed.

Lemma call_unwritten d l a s c' s' t :
  call code rec d l a s = Some (c', s', t) → eventData s' = eventData s.
Proof.
  assert (∀ n c1 s1 t1, apply code rec d n a s = Some (c1, s1, t1) →
                        eventData s1 = eventData s) as Happly.
  { intros n c1 s1 t1 Happ. apply logged_Some in Happ as (t0 & Hrun & _).
    eapply run_unwritten; [apply code_write_free | exact Hrun]. }
  destruct l as [n|i ev n]; simpl; [apply Happly|].
  intros Hcall.
  apply andThen_Some in Hcall as [(s1 & t1 & t2 & Happ & Hoff & _)|(err & _ & Happ)];
    [|eauto].
  unfold method in Hoff. injection Hoff as <- <- <-.
  rewrite eventData_off. eauto.
Qed.

Hypothesis rec_sound : sound rec.

Lemma current_data k a s s' : eventData s' = eventData s → current k a s' = current k a s.
Proof. unfold current. by intros ->. Qed.

(** Every listener of the loop is handed what the first one was. *)
Lemma forEach_unwritten d k a snapshot s c s' t :
  forEach code rec d k a snapshot s = Some (c, s', t) →
  eventData s' = eventData s
  ∧ direct d t = map (λ l, (l, current k a s)) snapshot.
Proof.
  revert s t. induction snapshot as [|l rest IH]; intros s t; simpl.
  { by intros [= _ <- <-]. }
  intros Hloop.
  apply andThen_Some in Hloop as [(s1 & t1 & t2 & H1 & Hrest & ->)|(err & -> & H1)];
    apply logged_Some in H1 as (t0 & Htry & ->);
    pose proof (round_sound code rec rec_sound _ _ _ _ _ _ _ _ Htry)
      as (Hc & Hdir0 & _); [|done].
  assert (eventData s1 = eventData s) as Hdata.
  { apply tryCatch_Some in Htry
      as [[_ Hcall]|(err & s0 & tc & te & Hcall & Hcatch & _)].
    - by eapply call_unwritten.
    - apply logged_Some in Hcatch as (te' & Herr & _).
      apply rec_data in Herr as ->. by eapply call_unwritten. }
  apply IH in Hrest as [Hdata' Hdir]. split; [congruence|].
  simpl. rewrite decide_True by done. rewrite direct_app, Hdir0, Hdir. simpl.
  by rewrite (current_data k a s1 s).
Qed.

Lemma emit_body_unwritten d eventName payload s c s' t :
  emit_body code rec d eventName payload s = Some (c, s', t) →
  eventData s' = eventData s.
Proof.
  unfold emit_body. intros Hbody. apply logged_Some in Hbody as (t0 & Hseq & _).
  assert (∀ c1 s1 t1, notifySpecific code rec d eventName payload s = Some (c1, s1, t1)
                      → eventData s1 = eventData s) as H1.
  { unfold notifySpecific. intros c1 s1 t1.
    destruct (property eventName s); [|by intros [= _ <- _]..].
    intros Hloop. by apply forEach_unwritten in Hloop as [? _]. }
  apply andThen_Some in Hseq as [(s1 & t1 & t2 & Hspec & Hwild & _)|(err & _ & Hspec)];
    [|eauto].
  apply H1 in Hspec as <-.
  unfold notifyWildcard in Hwild. case_decide; [|by injection Hwild as _ <- _].
  apply popped_Some in Hwild as (s2 & Hloop & ->).
  apply forEach_unwritten in Hloop as [Hdata _]. simpl. by rewrite Hdata.
Qed.

End Unwritten.

Lemma emit_unwritten code fuel d eventName payload s c s' t :
  (∀ n a, write_free (code n a)) →
  emit code fuel d eventName payload s = Some (c, s', t) →
  eventData s' = eventData s.
Proof.
  intros Hcode. revert d eventName payload s c s' t.
  induction fuel as [|fuel IH]; intros d eventName payload s c s' t; [done|].
  simpl. apply emit_body_unwritten; [done|exact IH|apply emit_sound].
Qed.

(** ** The object handed to wildcard listeners *)




(** ** Closures of [once] *)

Lemma all_closures_impl (Q Q' : nat → string → nat → Prop) s n data :
  (∀ i e m, Q i e m → Q' i e m) →
  all_closures Q s →
  all_closures Q' (Emitter (listeners s) (wildcardListeners s) n data).
Proof. intros HQ [Hmap Hwild]. split; simpl; eauto. Qed.

Lemma all_closures_registered Q C i e n s :
  all_closures Q s → OnceWrapper i e n ∈ registered C s → Q i e n.
Proof.
  intros [Hmap Hwild]. unfold registered. case_decide; [apply Hwild|].
  destruct (listeners s !! C) as [set|] eqn:E; [by eapply Hmap|].
  by intros ?%elem_of_nil.
Qed.

Lemma all_closures_cleared Q n data : all_closures Q (Emitter ∅ [] n data).
Proof.
  split; simpl.
  - intros ev set i e m. by rewrite lookup_empty.
  - intros i e m Hin. by apply elem_of_nil in Hin.
Qed.

Lemma all_closures_on Q eventName l s :
  (∀ i e n, l = OnceWrapper i e n → Q i e n) →
  all_closures Q s → all_closures Q (on eventName l s).2.
Proof.
  intros Hl [Hmap Hwild]. unfold on, property. case_decide; [split; simpl; [done|]|].
  { intros i e n [Hin|Heq]%elem_of_Set_add; [by eapply Hwild | by eapply Hl]. }
  destruct (listeners s !! eventName) as [set0|] eqn:E;
    [|destruct (inherited eventName); [done|]]; split; simpl; try done.
  - intros ev set i e n. rewrite lookup_insert. case_decide.
    + intros [= <-] [Hin|Heq]%elem_of_Set_add; [by eapply Hmap | by eapply Hl].
    + apply Hmap.
  - intros ev set i e n. rewrite lookup_insert. case_decide.
    + intros [= <-] [Hin|Heq]%elem_of_Set_add; [by apply elem_of_nil in Hin | by eapply Hl].
    + apply Hmap.
Qed.

Lemma all_closures_off Q eventName l s :
  all_closures Q s → all_closures Q (off eventName l s).2.
Proof.
  intros [Hmap Hwild]. unfold off, property. case_decide.
  - split; [done|]. simpl. intros i e n [Hin _]%elem_of_Set_delete. by eapply Hwild.
  - destruct (listeners s !! eventName) as [set0|] eqn:E;
      [|by destruct (inherited eventName)].
    split; [|done]. simpl. intros ev set i e n. rewrite lookup_insert. case_decide.
    + intros [= <-] [Hin _]%elem_of_Set_delete. by eapply Hmap.
    + apply Hmap.
Qed.

Lemma all_closures_removeAllListeners Q eventName s :
  all_closures Q s → all_closures Q (removeAllListeners eventName s).
Proof.
  intros [Hmap Hwild].
  pose proof (all_closures_cleared Q (wrapperCount s) (eventData s)) as Hclear.
  unfold removeAllListeners. destruct eventName as [name|]; [|done].
  repeat case_decide; [done| |].
  - split; [done|]. simpl. intros i e n Hin. by apply elem_of_nil in Hin.
  - split; [|done]. simpl. intros ev set i e n. rewrite lookup_delete.
    case_decide; [done | apply Hmap].
Qed.

Lemma closures_known_registered C i e n s :
  closures_known s → OnceWrapper i e n ∈ registered C s → i < wrapperCount s.
Proof. apply (all_closures_registered (λ i _ _, i < wrapperCount s)). Qed.

Lemma closures_known_new_emitter : closures_known new_emitter.
Proof. apply (all_closures_cleared (λ i _ _, i < 0)). Qed.

Lemma wrapperCount_on eventName l s : wrapperCount (on eventName l s).2 = wrapperCount s.
Proof. unfold on. case_decide; [done|]. by destruct (property eventName s). Qed.

Lemma wrapperCount_off eventName l s : wrapperCount (off eventName l s).2 = wrapperCount s.
Proof. unfold off. case_decide; [done|]. by destruct (property eventName s). Qed.

Lemma wrapperCount_once eventName n s :
  wrapperCount (once eventName n s).2 = S (wrapperCount s).
Proof. unfold once. by rewrite wrapperCount_on. Qed.

Lemma wrapperCount_removeAllListeners eventName s :
  wrapperCount (removeAllListeners eventName s) = wrapperCount s.
Proof. unfold removeAllListeners. destruct eventName; [|done]. by repeat case_decide. Qed.

Lemma closures_known_on eventName n s :
  closures_known s → closures_known (on eventName (User n) s).2.
Proof.
  intros Hs. unfold closures_known. rewrite wrapperCount_on.
  by apply (all_closures_on (λ i _ _, i < wrapperCount s)).
Qed.

Lemma closures_known_once eventName n s :
  closures_known s → closures_known (once eventName n s).2.
Proof.
  intros Hs. unfold closures_known. rewrite wrapperCount_once. unfold once.
  apply (all_closures_on (λ i _ _, i < S (wrapperCount s))).
  - intros i e m [= <- _ _]. lia.
  - apply (all_closures_impl (λ i _ _, i < wrapperCount s)); [|done].
    intros. lia.
Qed.

Lemma closures_known_off eventName l s :
  closures_known s → closures_known (off eventName l s).2.
Proof.
  intros Hs. unfold closures_known. rewrite wrapperCount_off.
  by apply (all_closures_off (λ i _ _, i < wrapperCount s)).
Qed.

Lemma closures_known_removeAllListeners eventName s :
  closures_known s → closures_known (removeAllListeners eventName s).
Proof.
  intros Hs. unfold closures_known. rewrite wrapperCount_removeAllListeners.
  by apply (all_closures_removeAllListeners (λ i _ _, i < wrapperCount s)).
Qed.

Lemma closures_known_data s data :
  closures_known s →
  closures_known (Emitter (listeners s) (wildcardListeners s) (wrapperCount s) data).
Proof. by intros [Hmap Hwild]. Qed.

(** ** Quiet listeners always return *)

Lemma run_quiet rec d c s :
  quiet c → closures_named s →
  ∃ s', run rec d c s = Some (Normal, s', []) ∧ closures_named s'.
Proof.
  revert s.
  induction c as [| |ev n k IH|ev n k IH|ev n k IH|ev p k IH|o k IH|ev k IH
                  |i e k IH|i p k IH|i k IH]; intros s Hq Hs; simpl in *; try done.
  - eauto.
  - destruct Hq as [Hev Hq].
    pose proof (on_returns ev (User n) s) as Hon.
    pose proof (all_closures_on _ ev (User n) s ltac:(done) Hs) as Hs1.
    destruct (on ev (User n) s) as [c1 s1]. simpl in Hon, Hs1.
    rewrite Hon by (right; by apply property_not_inherited).
    unfold method. simpl. destruct (IH s1 Hq Hs1) as (s' & -> & Hs'). eauto.
  - destruct Hq as [Hev Hq].
    pose proof (on_returns ev (OnceWrapper (wrapperCount s) ev n)
                  (Emitter (listeners s) (wildcardListeners s) (S (wrapperCount s))
                     (eventData s))) as Hon.
    assert (closures_named (once ev n s).2) as Hs1.
    { unfold once. apply all_closures_on; [by intros i e m [= _ <- _]|].
      by apply (all_closures_impl (λ _ e _, inherited e = false)). }
    unfold once in *.
    destruct (on ev _ _) as [c1 s1]. simpl in Hon, Hs1.
    rewrite Hon by (right; by apply property_not_inherited).
    unfold method. simpl. destruct (IH s1 Hq Hs1) as (s' & -> & Hs'). eauto.
  - destruct Hq as [Hev Hq].
    pose proof (off_returns ev (User n) s) as Hoff.
    pose proof (all_closures_off _ ev (User n) s Hs) as Hs1.
    destruct (off ev (User n) s) as [c1 s1]. simpl in Hoff, Hs1.
    rewrite Hoff by (right; by apply property_not_inherited).
    unfold method. simpl. destruct (IH s1 Hq Hs1) as (s' & -> & Hs'). eauto.
  - apply IH; [done|]. by apply all_closures_removeAllListeners.
  - by apply IH.
  - apply IH; [done|]. by apply (all_closures_impl (λ _ e _, inherited e = false)).
  - apply IH; [done|]. by apply (all_closures_impl (λ _ e _, inherited e = false)).
  - by apply IH.
Qed.

Lemma forEach_quiet code rec d k a snapshot s :
  (∀ n a, quiet (code n a)) →
  (∀ i e n, OnceWrapper i e n ∈ snapshot → inherited e = false) →
  closures_named s →
  ∃ s' t, forEach code rec d k a snapshot s = Some (Normal, s', t) ∧ closures_named s'.
Proof.
  intros Hq. revert s. induction snapshot as [|l rest IH]; intros s Hin Hs;
    cbn [forEach]; [eauto|].
  assert (∃ s1 t1, call code rec d l (current k a s) s = Some (Normal, s1, t1)
                   ∧ closures_named s1) as (s1 & t1 & -> & Hs1).
  { destruct l as [n|i ev n]; simpl; unfold apply;
      destruct (run_quiet rec d (code n (current k a s)) s (Hq n _) Hs)
      as (s1 & -> & Hs1); simpl; [eauto|].
    pose proof (off_returns ev (OnceWrapper i ev n) s1) as Hoff.
    pose proof (all_closures_off _ ev (OnceWrapper i ev n) s1 Hs1) as Hs2.
    destruct (off ev _ s1) as [c2 s2]. simpl in Hoff, Hs2.
    rewrite Hoff; [unfold method; simpl; eauto|].
    right. apply property_not_inherited. eapply Hin. left. }
  cbn [tryCatch logged andThen].
  destruct (IH s1) as (s' & t & -> & Hs'); [|done|eauto].
  intros i e n Hw. eapply Hin. by right.
Qed.

Lemma emit_quiet code fuel d eventName payload s :
  (∀ n a, quiet (code n a)) →
  closures_named s →
  property eventName s ≠ Inherited →
  ∃ s' t, emit code (S fuel) d eventName payload s = Some (Normal, s', t).
Proof.
  intros Hq Hs Hp. simpl. unfold emit_body.
  assert (∃ s1 t1, notifySpecific code (emit code fuel) d eventName payload s
                   = Some (Normal, s1, t1) ∧ closures_named s1) as (s1 & t1 & -> & Hs1).
  { unfold notifySpecific. rewrite property_own by done.
    destruct (listeners s !! eventName) as [set|] eqn:E; [|eauto].
    apply forEach_quiet; [done| |done].
    intros i e n Hin. destruct Hs as [Hmap _]. by eapply Hmap. }
  assert (∃ s2 t2, notifyWildcard code (emit code fuel) d eventName payload s1
                   = Some (Normal, s2, t2)) as (s2 & t2 & H2).
  { unfold notifyWildcard. case_decide; [|eauto].
    destruct (forEach_quiet code (emit code fuel) d Wildcard (ArgWild eventName payload)
                (wildcardListeners s1) (push (eventName, payload) s1) Hq)
      as (s2 & t2 & -> & _); [|by apply (all_closures_impl (λ _ e _, inherited e = false))
                              |simpl; eauto].
    intros i e n Hin. destruct Hs1 as [_ Hwild]. by eapply Hwild. }
  simpl. rewrite H2. simpl. eauto.
Qed.

(** ** Order of delivery *)

(** A wildcard loop hands out event objects only. *)
Lemma forEach_wildcard_args code rec d event payload snapshot s c s' t :
  sound rec →
  forEach code rec d Wildcard (ArgWild event payload) snapshot s = Some (c, s', t) →
  Forall (λ x, ∃ e p, x.2 = ArgWild e p) (direct d t).
Proof.
  intros Hrec. revert s t. induction snapshot as [|l rest IH]; intros s t; simpl.
  { intros [= _ _ <-]. constructor. }
  intros Hloop.
  apply andThen_Some in Hloop as [(s1 & t1 & t2 & H1 & Hrest & ->)|(err & -> & H1)];
    apply logged_Some in H1 as (t0 & Htry & ->);
    apply (round_sound code rec Hrec) in Htry as (Hc & Hdir0 & _); [|done].
  simpl. rewrite decide_True by done. rewrite direct_app, Hdir0. simpl.
  constructor; [|by eapply IH].
  unfold current. destruct (eventData s) as [|[e p] ?]; simpl; eauto.
Qed.

Lemma notifyWildcard_args code fuel d eventName payload s c s' t :
  notifyWildcard code (emit code fuel) d eventName payload s = Some (c, s', t) →
  Forall (λ x, ∃ e p, x.2 = ArgWild e p) (direct d t).
Proof.
  unfold notifyWildcard. case_decide; [|intros [= _ _ <-]; constructor].
  intros (s1 & Hloop & _)%popped_Some.
  eapply forEach_wildcard_args; [apply emit_sound | exact Hloop].
Qed.



Lemma payload_calls_app {A} (calls1 calls2 : list (A * arg)) :
  payload_calls (calls1 ++ calls2) = payload_calls calls1 ++ payload_calls calls2.
Proof. apply omap_app. Qed.

Lemma payload_calls_payload {A} p (set : list A) :
  payload_calls (map (λ l, (l, ArgPayload p)) set) = set.
Proof. induction set as [|l set IH]; [done|]. simpl. by rewrite IH. Qed.

Lemma payload_calls_wildcard_args {A} (calls : list (A * arg)) :
  Forall (λ x, ∃ e p, x.2 = ArgWild e p) calls → payload_calls calls = [].
Proof.
  induction 1 as [|[l a] calls (e & p & Ha) _ IH]; [done|].
  simpl in Ha. subst. exact IH.
Qed.

Lemma payload_calls_wrapped (calls : list (lid * arg)) :
  payload_calls (map (λ x, (wrapped x.1, x.2)) calls) = map wrapped (payload_calls calls).
Proof.
  induction calls as [|[l [p|e p]] calls IH]; [done|..]; simpl; by rewrite ?IH.
Qed.

(** C6, as stated, fails: the wildcard listener 3 is registered when
    [emit("x", 1)] is entered, the listener of ["x"] removes it, and [emit]
    returns without having called it. *)
Lemma C6_counterexample :
  ∃ s' t,
    emit meddling 1 0 "x" (VNum 1) drops_wildcard = Some (Normal, s', t)
    ∧ User 3 ∈ wildcardListeners drops_wildcard
    ∧ direct 0 t = [(User 2, ArgPayload (VNum 1))]
    ∧ runs_of 3 t = []
    ∧ occurrences (User 3) (direct 0 t).*1 = 0.
Proof.
  eexists _, _. split; [vm_compute; reflexivity|].
  split_and!; try by vm_compute. vm_compute. left.
Qed.

(** C6, amended.  A registration that returns appends to the set of the
    name, and an [emit(C, payload)] that returns has called the listeners
    of C, as the set was on entry, in the order of that set, each run with
    the payload, and only then the wildcard listeners: those of the wildcard
    set as it is when the first loop has ended, in the order of that set,
    each exactly once, whatever the set of C holds (nothing included).  When
    no function throws or calls [emit], and no inherited name is in play, the
    call does return. *)
Theorem C6_specific_listeners_in_order_then_wildcards code fuel d C payload s :
  wf s →
  (∀ l s0, C ≠ "*" → on C l s = (Normal, s0) →
           l ∉ default [] (listeners s !! C) →
           default [] (listeners s0 !! C) = default [] (listeners s !! C) ++ [l])
  ∧ (∀ s' t,
       emit code (S fuel) d C payload s = Some (Normal, s', t) →
       ∃ s1 t1 t2,
         notifySpecific code (emit code fuel) d C payload s = Some (Normal, s1, t1)
         ∧ notifyWildcard code (emit code fuel) d C payload s1 = Some (Normal, s', t2)
         ∧ t = EvEmit d C payload :: t1 ++ t2
         ∧ direct d t1 = map (λ l, (l, ArgPayload payload)) (default [] (listeners s !! C))
         ∧ runs d t1 = map (λ l, (wrapped l, ArgPayload payload))
                           (default [] (listeners s !! C))
         ∧ (direct d t2).*1 = wildcardListeners s1
         ∧ (runs d t2).*1 = wrapped <$> wildcardListeners s1
         ∧ ∀ w, w ∈ wildcardListeners s1 → occurrences w (direct d t2).*1 = 1)
  ∧ ((∀ n a, quiet (code n a)) → closures_named s → property C s ≠ Inherited →
     ∃ s' t, emit code (S fuel) d C payload s = Some (Normal, s', t)).
Proof.
  intros Hwf. split_and!.
  - intros l s0 HC Hon Hl. rewrite <- !registered_specific by done.
    pose proof (registered_on C l s) as Hreg. rewrite Hon in Hreg.
    simpl in Hreg. rewrite Hreg by done. unfold Set_add. rewrite decide_False; [done|].
    by rewrite registered_specific.
  - intros s' t Hemit.
    apply emit_calls in Hemit
      as (s1 & t1 & t2 & H1 & H2 & -> & _ & Hd1 & Hr1 & Hd2 & Hr2 & _ & _ & Hwf1).
    exists s1, t1, t2. split_and!; try done.
    + rewrite Hr2, <- Hd2. rewrite <- !list_fmap_compose. done.
    + intros w Hw. rewrite Hd2. apply occurrences_NoDup; [|done]. by apply Hwf1.
  - by apply emit_quiet.
Qed.

Lemma C6_specific_listeners_in_order_then_wildcards_witness :
  wf ping_pong
  ∧ emit noting 1 0 "ping" (VNum 5) ping_pong
    = Some (Normal,
            (on "payload of event is not 4" (User 3)
               (on "event ping" (User 3)
                  (on "other payload" (User 2)
                     (on "other payload" (User 1) ping_pong).2).2).2).2,
            [EvEmit 0 "ping" (VNum 5);
             EvCall 0 (User 1) (ArgPayload (VNum 5)); EvRun 0 1 (ArgPayload (VNum 5));
             EvCall 0 (User 2) (ArgPayload (VNum 5)); EvRun 0 2 (ArgPayload (VNum 5));
             EvCall 0 (User 3) (ArgWild "ping" (VNum 5));
             EvRun 0 3 (ArgWild "ping" (VNum 5))])
  ∧ default [] (listeners (on "ping" (User 9) ping_pong).2 !! "ping")
    = default [] (listeners ping_pong !! "ping") ++ [User 9]
  ∧ ∃ s1 t1 t2,
      notifySpecific noting (emit noting 0) 0 "ping" (VNum 5) ping_pong
      = Some (Normal, s1, t1)
      ∧ runs 0 t1 = [(1, ArgPayload (VNum 5)); (2, ArgPayload (VNum 5))]
      ∧ (runs 0 t2).*1 = [3]
      ∧ occurrences (User 3) (direct 0 t2).*1 = 1.
Proof.
  assert (wf ping_pong) as Hwf by (repeat apply wf_on; apply wf_new_emitter).
  destruct (C6_specific_listeners_in_order_then_wildcards
              noting 0 0 "ping" (VNum 5) ping_pong Hwf)
    as (Horder & Hcalls & Hreturns).
  split; [exact Hwf|].
  destruct Hreturns as (s' & t & Hemit).
  { intros n [p|e p]; simpl; by repeat case_decide. }
  { repeat apply all_closures_on; try done. apply all_closures_cleared. }
  { done. }
  assert (emit noting 1 0 "ping" (VNum 5) ping_pong
          = Some (Normal,
                  (on "payload of event is not 4" (User 3)
                     (on "event ping" (User 3)
                        (on "other payload" (User 2)
                           (on "other payload" (User 1) ping_pong).2).2).2).2,
                  [EvEmit 0 "ping" (VNum 5);
                   EvCall 0 (User 1) (ArgPayload (VNum 5));
                   EvRun 0 1 (ArgPayload (VNum 5));
                   EvCall 0 (User 2) (ArgPayload (VNum 5));
                   EvRun 0 2 (ArgPayload (VNum 5));
                   EvCall 0 (User 3) (ArgWild "ping" (VNum 5));
                   EvRun 0 3 (ArgWild "ping" (VNum 5))])) as Hrun
    by (vm_compute; reflexivity).
  split; [exact Hrun|]. split.
  { apply (Horder (User 9) (on "ping" (User 9) ping_pong).2);
      [done | vm_compute; reflexivity |].
    vm_compute. intros [[=]|[[=]|[]%elem_of_nil]%elem_of_cons]%elem_of_cons. }
  destruct (Hcalls _ _ Hrun) as (s1 & t1 & t2 & H1 & H2 & _ & _ & Hr1 & Hd2 & Hr2 & Honce).
  exists s1, t1, t2. split; [exact H1|]. split; [exact Hr1|].
  assert (wildcardListeners s1 = [User 3]) as Hw.
  { vm_compute in H1. by injection H1 as <- _. }
  rewrite Hw in *. split; [exact Hr2|]. apply Honce. left.
Defined.

(** ** Registration and removal *)

Lemma emitter_eta s :
  Emitter (listeners s) (wildcardListeners s) (wrapperCount s) (eventData s) = s.
Proof. by destruct s. Qed.


Lemma off_absent eventName l s :
  inherited eventName = false →
  l ∉ registered eventName s → off eventName l s = (Normal, s).
Proof.
  intros Hname. unfold registered, off, property. case_decide.
  - intros Hl. rewrite Set_delete_absent by done. by rewrite emitter_eta.
  - rewrite Hname. destruct (listeners s !! eventName) as [set|] eqn:E; [|done].
    intros Hl. rewrite Set_delete_absent by done.
    rewrite insert_id by done. by rewrite emitter_eta.
Qed.




(** C8, as stated, fails: function 0 is registered for ["x"] with [on] and
    with [once]; [off("x", f)] lowers the count from 2 to 1, and the next
    [emit("x", 1)] still runs the function, through the closure of
    [once].  And [off] for a name with no set is not always a no-op: for
    ["toString"] it throws. *)
Lemma C8_counterexample :
  ∃ s1 s' t,
    getListenerCount "x" on_and_once = 2
    ∧ User 0 ∈ registered "x" on_and_once
    ∧ off "x" (User 0) on_and_once = (Normal, s1)
    ∧ getListenerCount "x" s1 = 1
    ∧ emit silent 1 0 "x" (VNum 1) s1 = Some (Normal, s', t)
    ∧ runs_of 0 t = [(0, ArgPayload (VNum 1))]
    ∧ listeners new_emitter !! "toString" = None
    ∧ off "toString" (User 0) new_emitter = (Thrown delete_is_not_a_function, new_emitter).
Proof.
  eexists _, _, _. split_and!.
  - by vm_compute.
  - vm_compute. left.
  - vm_compute; reflexivity.
  - by vm_compute.
  - vm_compute; reflexivity.
  - by vm_compute.
  - done.
  - by vm_compute.
Qed.

(** C8, amended.  For a name that is not an inherited one, [off(C, L)]
    returns.  When L is registered for C it lowers the count of the name by
    exactly one and leaves L out of the set; when L is not registered, under
    a name with or without a set, it gives back the same emitter.  An
    [emit(C, ...)] that returns, on an emitter where L is not in the set
    of C, never calls L with a payload; the function behind L runs with a
    payload only through other registrations of it, closures of [once]
    included, and not at all when the set of C holds none. *)
Theorem C8_off_removes_one_registration code C L s :
  wf s →
  inherited C = false →
  ∃ s1,
    off C L s = (Normal, s1)
    ∧ (L ∈ registered C s →
       S (getListenerCount C s1) = getListenerCount C s
       ∧ (L ∉ registered C s1))
    ∧ (L ∉ registered C s → s1 = s)
    ∧ (C ≠ "*" →
       ∀ s2 fuel d payload s' t,
         L ∉ registered C s2 →
         emit code fuel d C payload s2 = Some (Normal, s', t) →
         (∀ p, (L, ArgPayload p) ∉ direct d t)
         ∧ ((∀ l, l ∈ registered C s2 → wrapped l ≠ wrapped L) →
            ∀ p, (wrapped L, ArgPayload p) ∉ runs d t)).
Proof.
  intros Hwf Hname.
  pose proof (off_returns C L s (or_intror (property_not_inherited C s Hname))) as Hret.
  pose proof (registered_off C L s Hret) as Hreg.
  destruct (off C L s) as [c s1] eqn:Hoff. simpl in Hret, Hreg. subst c.
  exists s1. split_and!; [done| | |].
  - intros HL. rewrite !registered_count, Hreg. split.
    + apply length_Set_delete; [by apply wf_registered | done].
    + apply Set_delete_gone.
  - intros HL. rewrite off_absent in Hoff by done. by injection Hoff as <-.
  - intros HC s2 fuel d payload s' t HL Hemit. destruct fuel as [|fuel]; [done|].
    apply emit_calls in Hemit
      as (s3 & t1 & t2 & H1 & H2 & -> & _ & Hd1 & Hr1 & _ & Hr2 & Hd & Hr & _).
    pose proof (notifyWildcard_args _ _ _ _ _ _ _ _ _ H2) as Hwild.
    rewrite <- registered_specific in Hd1, Hr1 by done.
    rewrite Forall_forall in Hwild. split.
    + intros p. rewrite Hd, Hd1, elem_of_app.
      intros [(x & [= -> _] & Hx)%list_elem_of_fmap | Hin]; [done|].
      by destruct (Hwild _ Hin) as (e & q & ?).
    + intros Hother p. rewrite Hr, Hr1, Hr2, elem_of_app.
      intros [(x & [= Hx _] & Hin)%list_elem_of_fmap
             |(x & [= _ Hx] & Hin)%list_elem_of_fmap].
      * by eapply Hother.
      * destruct (Hwild _ Hin) as (e & q & Hq). congruence.
Qed.

Lemma C8_off_removes_one_registration_witness :
  wf ping_pong
  ∧ off "ping" (User 1) ping_pong = (Normal, (off "ping" (User 1) ping_pong).2)
  ∧ S (getListenerCount "ping" (off "ping" (User 1) ping_pong).2)
    = getListenerCount "ping" ping_pong
  ∧ off "nothing" (User 1) ping_pong = (Normal, ping_pong)
  ∧ off "ping" (User 9) ping_pong = (Normal, ping_pong)
  ∧ ∃ s' t,
      emit noting 1 0 "ping" (VNum 4) (off "ping" (User 1) ping_pong).2
      = Some (Normal, s', t)
      ∧ t = [EvEmit 0 "ping" (VNum 4);
             EvCall 0 (User 2) (ArgPayload (VNum 4)); EvRun 0 2 (ArgPayload (VNum 4));
             EvCall 0 (User 3) (ArgWild "ping" (VNum 4));
             EvRun 0 3 (ArgWild "ping" (VNum 4))]
      ∧ (∀ p, (User 1, ArgPayload p) ∉ direct 0 t)
      ∧ (∀ p, (1, ArgPayload p) ∉ runs 0 t).
Proof.
  assert (wf ping_pong) as Hwf by (repeat apply wf_on; apply wf_new_emitter).
  destruct (C8_off_removes_one_registration noting "ping" (User 1) ping_pong Hwf eq_refl)
    as (s1 & Hoff & Hin & _ & Hemit).
  destruct (C8_off_removes_one_registration noting "nothing" (User 1) ping_pong Hwf eq_refl)
    as (s2 & Hoff2 & _ & Hout2 & _).
  destruct (C8_off_removes_one_registration noting "ping" (User 9) ping_pong Hwf eq_refl)
    as (s3 & Hoff3 & _ & Hout3 & _).
  assert (s1 = (off "ping" (User 1) ping_pong).2) as -> by (by rewrite Hoff).
  destruct Hin as [Hcount Hgone]; [vm_compute; left|].
  rewrite Hout2 in Hoff2
    by (vm_compute; intros []%elem_of_nil).
  rewrite Hout3 in Hoff3
    by (vm_compute; intros [[=]|[[=]|[]%elem_of_nil]%elem_of_cons]%elem_of_cons).
  split_and!; [exact Hwf | exact Hoff | exact Hcount | exact Hoff2 | exact Hoff3 |].
  eexists _, _. split; [vm_compute; reflexivity|]. split; [reflexivity|].
  edestruct (Hemit ltac:(done) (off "ping" (User 1) ping_pong).2 1 0 (VNum 4))
    as [Hcalls Hruns];
    [exact Hgone | vm_compute; reflexivity |].
  split; [exact Hcalls|]. apply Hruns.
  intros l Hl. vm_compute in Hl. apply list_elem_of_singleton in Hl as ->. done.
Defined.

(** ** Each method touches the set of its own name only *)

(** X1. [removeAllListeners(name)] with a name other than the empty string
    empties the set of that name, the wildcard set when the name is ["*"],
    and leaves the count of every other name as it was. *)
Theorem removeAllListeners_clears_one_name name s :
  name ≠ "" →
  getListenerCount name (removeAllListeners (Some name) s) = 0
  ∧ ∀ other, other ≠ name →
      getListenerCount other (removeAllListeners (Some name) s)
      = getListenerCount other s.
Proof.
  intros Hname. split; [|intros other Hother];
    rewrite !registered_count, registered_removeAllListeners;
    rewrite decide_False by done.
  - by rewrite decide_True.
  - by rewrite decide_False.
Qed.

Lemma removeAllListeners_clears_one_name_witness :
  getListenerCount "x" (removeAllListeners (Some "x") populated) = 0
  ∧ getListenerCount "y" (removeAllListeners (Some "x") populated) = 1
  ∧ getListenerCount "*" (removeAllListeners (Some "x") populated) = 1
  ∧ getListenerCount "*" (removeAllListeners (Some "*") populated) = 0
  ∧ getListenerCount "x" (removeAllListeners (Some "*") populated) = 1.
Proof.
  destruct (removeAllListeners_clears_one_name "x" populated ltac:(done)) as [Hx Hframe].
  destruct (removeAllListeners_clears_one_name "*" populated ltac:(done)) as [Hw Hframe'].
  split_and!; [exact Hx | | | exact Hw |].
  - by rewrite Hframe.
  - by rewrite Hframe.
  - by rewrite Hframe'.
Defined.

Lemma property_Inherited eventName s :
  property eventName s = Inherited →
  eventName ≠ "*" ∧ inherited eventName = true ∧ listeners s !! eventName = None.
Proof.
  unfold property. destruct (listeners s !! eventName); [done|].
  destruct (inherited eventName) eqn:E; [|done]. intros _.
  split; [|done]. intros ->. by rewrite inherited_star in E.
Qed.

(** X2. [on(C, L)] returns unless C is an inherited name without a set.
    When it returns, the listener is in the set of C and the count of C is
    at least 1: one more than before when L was not registered for C, the
    same as before when it was.  For an inherited name without a set it
    throws the [TypeError] of the failed call of [add], the emitter is as it
    was and the count of the name is still 0. *)
Theorem on_registers_and_counts C L s :
  (property C s ≠ Inherited →
   (on C L s).1 = Normal
   ∧ L ∈ registered C (on C L s).2
   ∧ 1 ≤ getListenerCount C (on C L s).2
   ∧ getListenerCount C (on C L s).2
     = if decide (L ∈ registered C s) then getListenerCount C s
       else S (getListenerCount C s))
  ∧ (property C s = Inherited →
     on C L s = (Thrown add_is_not_a_function, s)
     ∧ getListenerCount C s = 0).
Proof.
  split.
  - intros Hp. pose proof (on_returns C L s (or_intror Hp)) as Hret.
    split; [done|].
    rewrite !registered_count, registered_on by done. unfold Set_add.
    case_decide as HL; split_and!; try done.
    + destruct (registered C s); [by apply elem_of_nil in HL | simpl; lia].
    + apply elem_of_app. right. by apply list_elem_of_singleton.
    + rewrite length_app. simpl. lia.
    + rewrite length_app. simpl. lia.
  - intros Hp. destruct (property_Inherited _ _ Hp) as (HC & _ & _). split.
    + unfold on. rewrite decide_False by done. by rewrite Hp.
    + unfold getListenerCount. rewrite decide_False by done. by rewrite Hp.
Qed.

Lemma on_registers_and_counts_witness :
  on "ping" (User 9) ping_pong = (Normal, (on "ping" (User 9) ping_pong).2)
  ∧ registered "ping" (on "ping" (User 9) ping_pong).2 = [User 1; User 2; User 9]
  ∧ getListenerCount "ping" (on "ping" (User 9) ping_pong).2 = 3
  ∧ getListenerCount "ping" (on "ping" (User 1) ping_pong).2 = 2
  ∧ on "toString" (User 9) ping_pong = (Thrown add_is_not_a_function, ping_pong)
  ∧ getListenerCount "toString" ping_pong = 0.
Proof.
  destruct (on_registers_and_counts "ping" (User 9) ping_pong) as [Hnew _].
  destruct (on_registers_and_counts "ping" (User 1) ping_pong) as [Hold _].
  destruct (on_registers_and_counts "toString" (User 9) ping_pong) as [_ Hthrown].
  destruct Hnew as (_ & _ & _ & Hnew); [by vm_compute|].
  destruct Hold as (_ & _ & _ & Hold); [by vm_compute|].
  destruct Hthrown as [Hthrown Hcount]; [by vm_compute|].
  split_and!; [by vm_compute | by vm_compute | by rewrite Hnew | by rewrite Hold
              | exact Hthrown | exact Hcount].
Defined.

(** X3. [on], [once] and [off] for one name leave the set of every other
    name as it was; the wildcard set counts as the set of ["*"], so listeners
    of a name and wildcard listeners never mix. *)
Theorem other_names_untouched C eventName l n s :
  eventName ≠ C →
  registered C (on eventName l s).2 = registered C s
  ∧ registered C (once eventName n s).2 = registered C s
  ∧ registered C (off eventName l s).2 = registered C s.
Proof.
  intros Hne. split_and!.
  - by apply registered_on_other.
  - by apply registered_once_other.
  - by apply registered_off_other.
Qed.

Lemma other_names_untouched_witness :
  registered "*" (on "ping" (User 9) ping_pong).2 = [User 3]
  ∧ registered "ping" (once "*" 9 ping_pong).2 = [User 1; User 2]
  ∧ registered "ping" (off "*" (User 3) ping_pong).2 = [User 1; User 2].
Proof.
  destruct (other_names_untouched "*" "ping" (User 9) 9 ping_pong ltac:(done))
    as (Hon & _ & _).
  destruct (other_names_untouched "ping" "*" (User 3) 9 ping_pong ltac:(done))
    as (_ & Honce & Hoff).
  split_and!; [by rewrite Hon | by rewrite Honce | by rewrite Hoff].
Defined.

Lemma property_off eventName C l s :
  property C s ≠ Inherited → property C (off eventName l s).2 ≠ Inherited.
Proof.
  intros Hp. destruct (inherited C) eqn:HC; [|by apply property_not_inherited].
  unfold property in *. rewrite HC in *.
  destruct (listeners s !! C) as [set|] eqn:E; [|done].
  unfold off, property. case_decide; [by simpl; rewrite E|].
  destruct (listeners s !! eventName) as [set'|] eqn:E'; simpl.
  - destruct (decide (eventName = C)) as [->|Hne].
    + by rewrite lookup_insert_eq.
    + by rewrite lookup_insert_ne, E.
  - destruct (inherited eventName); simpl; by rewrite E.
Qed.

(** X4. For a name that is not an inherited one without a set, removing a
    listener and registering it again both return, and put it behind every
    listener that stayed: it is now the last of its set, hence the last of
    its loop to be called. *)
Theorem reregistering_moves_last C L s :
  property C s ≠ Inherited →
  (off C L s).1 = Normal
  ∧ (on C L (off C L s).2).1 = Normal
  ∧ registered C (on C L (off C L s).2).2 = Set_delete L (registered C s) ++ [L].
Proof.
  intros Hp.
  pose proof (off_returns C L s (or_intror Hp)) as Hoff.
  pose proof (on_returns C L (off C L s).2 (or_intror (property_off C C L s Hp))) as Hon.
  split_and!; [done..|].
  rewrite registered_on, registered_off by done. unfold Set_add.
  rewrite decide_False; [done | apply Set_delete_gone].
Qed.

Lemma reregistering_moves_last_witness :
  property "ping" ping_pong ≠ Inherited
  ∧ registered "ping" ping_pong = [User 1; User 2]
  ∧ on "ping" (User 1) (off "ping" (User 1) ping_pong).2
    = (Normal, (on "ping" (User 1) (off "ping" (User 1) ping_pong).2).2)
  ∧ registered "ping" (on "ping" (User 1) (off "ping" (User 1) ping_pong).2).2
    = [User 2; User 1].
Proof.
  assert (property "ping" ping_pong ≠ Inherited) as Hp by (by vm_compute).
  destruct (reregistering_moves_last "ping" (User 1) ping_pong Hp) as (_ & Hon & Hreg).
  split_and!; [exact Hp | by vm_compute | | by rewrite Hreg].
  by destruct (on "ping" (User 1) (off "ping" (User 1) ping_pong).2) as [c s1];
    simpl in *; subst.
Defined.

(** ** Emitters a client can reach *)

Lemma no_star_on eventName l s :
  listeners s !! "*" = None → listeners (on eventName l s).2 !! "*" = None.
Proof.
  intros Hs. unfold on. case_decide; [done|].
  destruct (property eventName s); simpl; [| done |]; by rewrite lookup_insert_ne.
Qed.

Lemma no_star_off eventName l s :
  listeners s !! "*" = None → listeners (off eventName l s).2 !! "*" = None.
Proof.
  intros Hs. unfold off. case_decide; [done|].
  destruct (property eventName s); simpl; [| done | done]. by rewrite lookup_insert_ne.
Qed.

Lemma no_star_removeAllListeners eventName s :
  listeners s !! "*" = None → listeners (removeAllListeners eventName s) !! "*" = None.
Proof.
  intros Hs. unfold removeAllListeners. destruct eventName as [name|]; [|done].
  repeat case_decide; try done. simpl. rewrite lookup_delete. by case_decide.
Qed.

(** X5. In every emitter a client can reach, the sets hold no listener
    twice, every registered closure of [once] is one that [once] has built,
    and nothing is stored under the name ["*"]. *)
Theorem reachable_emitters_are_well_formed code s :
  reachable code s →
  wf s ∧ closures_known s ∧ listeners s !! "*" = None.
Proof.
  induction 1 as [|ev n s _ (Hwf & Hck & Hstar)|ev n s _ (Hwf & Hck & Hstar)
                  |ev n s _ (Hwf & Hck & Hstar)|ev s _ (Hwf & Hck & Hstar)
                  |fuel ev p s c s' t _ (Hwf & Hck & Hstar) Hemit].
  - split_and!; [apply wf_new_emitter | apply closures_known_new_emitter | done].
  - split_and!; [by apply wf_on | by apply closures_known_on | by apply no_star_on].
  - split_and!; [by apply wf_once | by apply closures_known_once |].
    unfold once. by apply no_star_on.
  - split_and!; [by apply wf_off | by apply closures_known_off | by apply no_star_off].
  - split_and!; [by apply wf_removeAllListeners
                | by apply closures_known_removeAllListeners
                | by apply no_star_removeAllListeners].
  - split_and!.
    + by apply (emit_sound code fuel) in Hemit as (_ & _ & _ & _ & Hwf' & _); auto.
    + eapply (emit_keeps closures_known); [..|exact Hemit|done].
      * intros. by apply closures_known_on.
      * intros. by apply closures_known_once.
      * intros. by apply closures_known_off.
      * intros. by apply closures_known_removeAllListeners.
      * intros. by apply closures_known_data.
    + eapply (emit_keeps (λ x, listeners x !! "*" = None)); [..|exact Hemit|done].
      * intros. by apply no_star_on.
      * intros. unfold once. by apply no_star_on.
      * intros. by apply no_star_off.
      * intros. by apply no_star_removeAllListeners.
      * done.
Qed.

Lemma reachable_emitters_are_well_formed_witness :
  reachable demo_code demo_registered
  ∧ wf demo_registered ∧ closures_known demo_registered
  ∧ listeners demo_registered !! "*" = None.
Proof.
  assert (reachable demo_code demo_registered) as Hreach.
  { unfold demo_registered. repeat first [apply reach_on | apply reach_once].
    apply reach_new. }
  split; [exact Hreach|].
  exact (reachable_emitters_are_well_formed demo_code demo_registered Hreach).
Defined.

(** X6. For a name that is not an inherited one without a set, [once]
    returns, and each call of it adds one registration of its own, also for
    a function that is registered already, directly or by an earlier [once]:
    the count of the name grows by exactly 1.  The registration is the new
    closure, so [off] with the function itself does not remove it. *)
Theorem once_adds_a_registration_of_its_own eventName n s :
  closures_known s →
  property eventName s ≠ Inherited →
  (once eventName n s).1 = Normal
  ∧ getListenerCount eventName (once eventName n s).2 = S (getListenerCount eventName s)
  ∧ (off eventName (User n) (once eventName n s).2).1 = Normal
  ∧ OnceWrapper (wrapperCount s) eventName n
    ∈ registered eventName (off eventName (User n) (once eventName n s).2).2.
Proof.
  intros Hck Hp.
  assert (OnceWrapper (wrapperCount s) eventName n ∉ registered eventName s) as Hnew.
  { intros Hin. apply (closures_known_registered _ _ _ _ _ Hck) in Hin. lia. }
  assert ((once eventName n s).1 = Normal) as Honce by (by apply on_returns; right).
  assert (property eventName (once eventName n s).2 ≠ Inherited) as Hp'.
  { destruct (inherited eventName) eqn:HC; [|by apply property_not_inherited].
    unfold property in Hp. rewrite HC in Hp.
    destruct (listeners s !! eventName) as [set|] eqn:E; [|done].
    unfold once, on, property. case_decide; simpl; [by rewrite E|].
    rewrite E. simpl. unfold property; simpl. by rewrite lookup_insert_eq. }
  assert ((off eventName (User n) (once eventName n s).2).1 = Normal) as Hoff
    by (by apply off_returns; right).
  split_and!; [done| |done|].
  - rewrite !registered_count, registered_once by done. unfold Set_add.
    rewrite decide_False by done. rewrite length_app. simpl. lia.
  - rewrite registered_off, registered_once by done. apply elem_of_Set_delete.
    split; [|done]. apply elem_of_Set_add. by right.
Qed.

Lemma once_adds_a_registration_of_its_own_witness :
  closures_known once_x
  ∧ property "x" once_x ≠ Inherited
  ∧ getListenerCount "x" (once "x" 0 once_x).2 = 2
  ∧ registered "x" (off "x" (User 0) (once "x" 0 once_x).2).2
    = [OnceWrapper 0 "x" 0; OnceWrapper 1 "x" 0]
  ∧ OnceWrapper 1 "x" 0 ∈ registered "x" (off "x" (User 0) (once "x" 0 once_x).2).2.
Proof.
  assert (closures_known once_x) as Hck
    by (apply closures_known_once, closures_known_new_emitter).
  assert (property "x" once_x ≠ Inherited) as Hp by (by vm_compute).
  split; [exact Hck|]. split; [exact Hp|].
  destruct (once_adds_a_registration_of_its_own "x" 0 once_x Hck Hp)
    as (_ & Hcount & _ & Hin).
  split_and!; [by rewrite Hcount | by vm_compute | exact Hin].
Defined.

(** ** More on what [emit] calls and returns *)

(** X7. [emit] for an inherited name without a set throws the [TypeError]
    of the failed spread at once: the emitter is as it was and nobody is
    called, wildcard listeners included.  For every other name, whatever the
    listeners do, throwing included, a call of [emit] that returns has
    completed normally: no fault of a listener reaches the caller. *)
Theorem emit_completes_normally code fuel d eventName payload s :
  (property eventName s = Inherited →
   emit code (S fuel) d eventName payload s
   = Some (Thrown is_not_iterable, s, [EvEmit d eventName payload]))
  ∧ (property eventName s ≠ Inherited →
     ∀ c s' t, emit code fuel d eventName payload s = Some (c, s', t) → c = Normal).
Proof.
  split; [apply emit_inherited|].
  intros Hp c s' t Hemit. apply emit_sound in Hemit as (Hc & _). by apply Hc.
Qed.

Lemma emit_completes_normally_witness :
  emit (throwing (VStr "boom")) 1 0 "toString" (VNum 1) error_audience
  = Some (Thrown is_not_iterable, error_audience, [EvEmit 0 "toString" (VNum 1)])
  ∧ emit (throwing (VStr "boom")) 2 0 "z" (VNum 1) error_audience
    = Some (Normal, error_audience,
            [EvEmit 0 "z" (VNum 1);
             EvCall 0 (User 0) (ArgPayload (VNum 1)); EvRun 0 0 (ArgPayload (VNum 1));
             EvCaught 0 Specific (VStr "boom");
             EvEmit 1 "error" (VError "An error occurred in a listener.");
             EvCall 1 (User 1) (ArgPayload (VError "An error occurred in a listener."));
             EvRun 1 1 (ArgPayload (VError "An error occurred in a listener."));
             EvCall 1 (User 2)
               (ArgWild "error" (VError "An error occurred in a listener."));
             EvRun 1 2 (ArgWild "error" (VError "An error occurred in a listener."));
             EvCall 0 (User 2) (ArgWild "z" (VNum 1));
             EvRun 0 2 (ArgWild "z" (VNum 1))]).
Proof.
  destruct (emit_completes_normally (throwing (VStr "boom")) 0 0 "toString" (VNum 1)
              error_audience) as [Hthrown _].
  destruct (emit_completes_normally (throwing (VStr "boom")) 2 0 "z" (VNum 1)
              error_audience) as [_ Hnormal].
  split; [apply Hthrown; by vm_compute|].
  destruct (emit (throwing (VStr "boom")) 2 0 "z" (VNum 1) error_audience)
    as [[[c s'] t]|] eqn:Hemit; [|by vm_compute in Hemit].
  rewrite (Hnormal ltac:(by vm_compute) c s' t eq_refl) in *.
  vm_compute in Hemit. injection Hemit as <- <-. reflexivity.
Defined.

(** X8. The listeners that a returning [emit(C, payload)] calls with the bare
    payload are those of the set of C as it was on entry, in its order, each
    once, also when a listener of the loop unregisters or registers some of
    them meanwhile, and the functions that run with the bare payload are
    theirs, in the same order; for a name other than ["*"] their number is
    what [getListenerCount(C)] returned before the call. *)
Theorem emit_calls_the_counted_listeners code fuel d C payload s s' t :
  emit code fuel d C payload s = Some (Normal, s', t) →
  payload_calls (direct d t) = default [] (listeners s !! C)
  ∧ payload_calls (runs d t) = map wrapped (default [] (listeners s !! C))
  ∧ (C ≠ "*" → length (payload_calls (direct d t)) = getListenerCount C s).
Proof.
  intros Hemit. destruct fuel as [|fuel]; [done|].
  apply emit_calls in Hemit
    as (s1 & t1 & t2 & _ & H2 & _ & _ & Hd1 & Hr1 & _ & Hr2 & -> & -> & _).
  pose proof (notifyWildcard_args _ _ _ _ _ _ _ _ _ H2) as Hwild.
  rewrite Hr2, Hr1, Hd1, !payload_calls_app, payload_calls_wrapped,
    (payload_calls_wildcard_args _ Hwild), payload_calls_payload, !app_nil_r.
  split_and!; [done| |].
  - clear. induction (default [] (listeners s !! C)) as [|l set IH]; [done|].
    simpl. by rewrite IH.
  - intros HC. by rewrite registered_count, registered_specific.
Qed.

Lemma emit_calls_the_counted_listeners_witness :
  emit self_editing 1 0 "x" (VNum 4) pair_x
  = Some (Normal,
          (on "payload 4" (User 1) (on "x" (User 2) (off "x" (User 1) pair_x).2).2).2,
          [EvEmit 0 "x" (VNum 4);
           EvCall 0 (User 0) (ArgPayload (VNum 4)); EvRun 0 0 (ArgPayload (VNum 4));
           EvCall 0 (User 1) (ArgPayload (VNum 4)); EvRun 0 1 (ArgPayload (VNum 4));
           EvCall 0 (User 3) (ArgWild "x" (VNum 4));
           EvRun 0 3 (ArgWild "x" (VNum 4))])
  ∧ registered "x"
      (on "payload 4" (User 1) (on "x" (User 2) (off "x" (User 1) pair_x).2).2).2
    = [User 0; User 2]
  ∧ ∃ s' t,
      emit self_editing 1 0 "x" (VNum 4) pair_x = Some (Normal, s', t)
      ∧ payload_calls (direct 0 t) = [User 0; User 1]
      ∧ payload_calls (runs 0 t) = [0; 1]
      ∧ length (payload_calls (direct 0 t)) = getListenerCount "x" pair_x.
Proof.
  split; [vm_compute; reflexivity|]. split; [by vm_compute|].
  eexists _, _. split; [vm_compute; reflexivity|].
  edestruct (emit_calls_the_counted_listeners self_editing 1 0 "x" (VNum 4) pair_x)
    as (Hcalls & Hruns & Hcount); [vm_compute; reflexivity|].
  split_and!; [exact Hcalls | exact Hruns | by apply Hcount].
Defined.

(** X9. [emit] for a name with no set, or with an empty one, that is not an
    inherited name without a set, on an emitter without wildcard listeners
    calls nothing and leaves the emitter as it is. *)
Theorem emit_without_listeners code fuel d eventName payload s :
  property eventName s ≠ Inherited →
  default [] (listeners s !! eventName) = [] →
  wildcardListeners s = [] →
  emit code (S fuel) d eventName payload s = Some (Normal, s, [EvEmit d eventName payload]).
Proof.
  intros Hp Hset Hwild. simpl. unfold emit_body, notifySpecific, notifyWildcard.
  rewrite property_own by done.
  destruct (listeners s !! eventName) as [set|]; simpl in *; subst; simpl;
    by rewrite Hwild.
Qed.

Lemma emit_without_listeners_witness :
  emit silent 1 0 "nobody" (VNum 1) once_x
  = Some (Normal, once_x, [EvEmit 0 "nobody" (VNum 1)])
  ∧ emit silent 1 0 "x" (VNum 1) (off "x" (OnceWrapper 0 "x" 0) once_x).2
    = Some (Normal, (off "x" (OnceWrapper 0 "x" 0) once_x).2, [EvEmit 0 "x" (VNum 1)]).
Proof.
  split; apply emit_without_listeners; by vm_compute.
Defined.

Lemma notifyWildcard_unwritten code fuel d C payload s c s' t :
  (∀ n a, write_free (code n a)) →
  notifyWildcard code (emit code fuel) d C payload s = Some (c, s', t) →
  direct d t = map (λ l, (l, ArgWild C payload)) (wildcardListeners s).
Proof.
  intros Hcode. unfold notifyWildcard. case_decide as Hsize.
  - intros (s2 & Hloop & _)%popped_Some.
    apply forEach_unwritten in Hloop as [_ Hdir]; [done|done| |apply emit_sound].
    intros. by eapply emit_unwritten.
  - intros [= _ _ <-]. destruct (wildcardListeners s); [done|]. simpl in Hsize. lia.
Qed.

(** X10. [emit("*", payload)] on a reachable emitter returns normally when
    it returns; it calls the wildcard listeners of the moment and runs their
    functions, each with the event object, the first with ["*"] paired with
    the payload, all of them when no function assigns to an event object,
    and nobody with the bare payload. *)
Theorem emit_star_reaches_wildcard_listeners_only code fuel d payload s c s' t :
  listeners s !! "*" = None →
  emit code fuel d "*" payload s = Some (c, s', t) →
  c = Normal
  ∧ (direct d t).*1 = wildcardListeners s
  ∧ runs d t = map (λ x, (wrapped x.1, x.2)) (direct d t)
  ∧ payload_calls (direct d t) = []
  ∧ payload_calls (runs d t) = []
  ∧ (∀ l a calls, direct d t = (l, a) :: calls → a = ArgWild "*" payload)
  ∧ ((∀ n a, write_free (code n a)) →
     direct d t = map (λ l, (l, ArgWild "*" payload)) (wildcardListeners s)).
Proof.
  intros Hstar Hemit.
  assert (property "*" s = Absent) as Hp by (unfold property; by rewrite Hstar).
  assert (c = Normal) as ->.
  { apply emit_sound in Hemit as (Hc & _). apply Hc. by rewrite Hp. }
  destruct fuel as [|fuel]; [done|].
  apply emit_calls in Hemit
    as (s1 & t1 & t2 & H1 & H2 & _ & _ & Hd1 & Hr1 & Hd2 & Hr2 & -> & -> & _).
  unfold notifySpecific in H1. rewrite Hp in H1. injection H1 as <- <-.
  pose proof (notifyWildcard_args _ _ _ _ _ _ _ _ _ H2) as Hwild.
  simpl. split_and!; try done.
  - by apply payload_calls_wildcard_args.
  - rewrite Hr2, payload_calls_wrapped, (payload_calls_wildcard_args _ Hwild). done.
  - intros l a calls Hcalls. unfold notifyWildcard in H2.
    case_decide; [|by injection H2 as _ <-].
    apply popped_Some in H2 as (s2 & Hloop & _).
    destruct (wildcardListeners s) as [|w ws]; [by injection Hloop as _ <-|].
    apply forEach_first in Hloop as [calls' Hfirst].
    rewrite Hfirst in Hcalls. by injection Hcalls as _ <- _.
  - intros Hcode. by eapply notifyWildcard_unwritten.
Qed.

Lemma emit_star_reaches_wildcard_listeners_only_witness :
  listeners ping_pong !! "*" = None
  ∧ emit noting 1 0 "*" (VNum 1) ping_pong
    = Some (Normal,
            (on "payload of event is not 4" (User 3)
               (on "other event" (User 3) ping_pong).2).2,
            [EvEmit 0 "*" (VNum 1);
             EvCall 0 (User 3) (ArgWild "*" (VNum 1));
             EvRun 0 3 (ArgWild "*" (VNum 1))])
  ∧ ∃ s' t,
      emit noting 1 0 "*" (VNum 1) ping_pong = Some (Normal, s', t)
      ∧ direct 0 t = [(User 3, ArgWild "*" (VNum 1))]
      ∧ runs 0 t = [(3, ArgWild "*" (VNum 1))].
Proof.
  split; [reflexivity|]. split; [vm_compute; reflexivity|].
  eexists _, _. split; [vm_compute; reflexivity|].
  edestruct (emit_star_reaches_wildcard_listeners_only noting 1 0 (VNum 1) ping_pong)
    as (_ & _ & Hruns & _ & _ & _ & Hall); [reflexivity | vm_compute; reflexivity |].
  assert (direct 0
            [EvEmit 0 "*" (VNum 1); EvCall 0 (User 3) (ArgWild "*" (VNum 1));
             EvRun 0 3 (ArgWild "*" (VNum 1))]
          = [(User 3, ArgWild "*" (VNum 1))]) as Hdir.
  { rewrite Hall; [by vm_compute|].
    intros n [p|e p]; simpl; by repeat case_decide. }
  split; [exact Hdir|]. by rewrite Hruns, Hdir.
Defined.

(** ** Faults are contained when the error path is calm *)

Lemma safe_off code eventName l s : safe code s → safe code (off eventName l s).2.
Proof.
  intros [He Hw]. split; intros x Hx; [apply He | apply Hw];
    by eapply registered_off_subseteq.
Qed.

Lemma safe_removeAllListeners code eventName s :
  safe code s → safe code (removeAllListeners eventName s).
Proof.
  assert (∀ C x, x ∈ registered C (removeAllListeners eventName s) → x ∈ registered C s)
    as Hsub.
  { intros C x. rewrite registered_removeAllListeners.
    destruct eventName; [|by intros ?%elem_of_nil].
    repeat case_decide; try done; by intros ?%elem_of_nil. }
  intros [He Hw]. split; intros x Hx; [apply He | apply Hw]; by apply Hsub.
Qed.

Lemma safe_data code s n data :
  safe code s → safe code (Emitter (listeners s) (wildcardListeners s) n data).
Proof. by intros [He Hw]. Qed.

Section Contained.

Variable code : nat → arg → prog.
Hypothesis code_detached : ∀ n a, detached (code n a).

Lemma run_detached rec d c s :
  detached c → safe code s →
  ∃ c' s', run rec d c s = Some (c', s', [])
           ∧ safe code s' ∧ (no_throw c → c' = Normal).
Proof.
  revert s.
  induction c as [| |ev n k IH|ev n k IH|ev n k IH|ev p k IH|o k IH|ev k IH
                  |i e k IH|i p k IH|i k IH]; intros s Hc Hs; simpl in *; try done.
  - by eexists _, _.
  - by eexists _, _.
  - pose proof (off_returns ev (User n) s) as Hret.
    pose proof (safe_off code ev (User n) s Hs) as Hs1.
    destruct (off ev (User n) s) as [[|err] s1] eqn:Hoff; unfold method; simpl in *.
    + destruct (IH s1 Hc Hs1) as (c' & s' & -> & Hs' & Hn).
      exists c', s'. split_and!; [done..|]. intros [_ Hk]. by apply Hn.
    + exists (Thrown err), s1. split_and!; [done..|]. intros [Hev _].
      by apply Hret; right; apply property_not_inherited.
  - apply IH; [done|]. by apply safe_removeAllListeners.
  - destruct (IH (getListenerCount ev s) s (Hc _) Hs) as (c' & s' & Hrun & Hs' & Hn).
    exists c', s'. split_and!; [done..|]. intros Hk. by apply Hn.
  - apply IH; [done|]. by apply safe_data.
  - apply IH; [done|]. by apply safe_data.
  - destruct (IH (eventData s !! i) s (Hc _) Hs) as (c' & s' & Hrun & Hs' & Hn).
    exists c', s'. split_and!; [done..|]. intros Hk. by apply Hn.
Qed.

Lemma call_detached rec d l a s :
  safe code s →
  ∃ c' s' t, call code rec d l a s = Some (c', s', t)
             ∧ safe code s' ∧ (calm code l → c' = Normal).
Proof.
  intros Hs. destruct l as [n|i ev n]; simpl; unfold apply;
    destruct (run_detached rec d (code n a) s (code_detached n a) Hs)
    as (c' & s' & -> & Hs' & Hn); simpl.
  - eexists _, _, _. split_and!; [done..|]. intros [Hl _]. apply Hn, Hl.
  - destruct c'; simpl.
    + pose proof (off_returns ev (OnceWrapper i ev n) s') as Hret.
      pose proof (safe_off code ev (OnceWrapper i ev n) s' Hs') as Hs1.
      destruct (off ev (OnceWrapper i ev n) s') as [c1 s1]. unfold method. simpl in *.
      eexists _, _, _. split_and!; [done..|]. intros [_ Hev].
      by apply Hret; right; apply property_not_inherited.
    + eexists _, _, _. split_and!; [done..|]. intros [Hl _]. apply Hn, Hl.
Qed.

(** A loop over calm listeners needs no [catch]. *)
Lemma forEach_calm rec d k a snapshot s :
  Forall (calm code) snapshot → safe code s →
  ∃ s' t, forEach code rec d k a snapshot s = Some (Normal, s', t) ∧ safe code s'.
Proof.
  intros Hsnap. revert s. induction Hsnap as [|l rest Hl _ IH]; intros s Hs;
    cbn [forEach]; [by eexists _, _|].
  destruct (call_detached rec d l (current k a s) s Hs) as (c' & s1 & t1 & -> & Hs1 & Hn).
  rewrite (Hn Hl). cbn [tryCatch logged andThen].
  destruct (IH s1 Hs1) as (s' & t & -> & Hs'). by eexists _, _.
Qed.

Lemma emit_error_calm rec d payload s :
  safe code s →
  ∃ s' t, emit_body code rec d "error" payload s = Some (Normal, s', t) ∧ safe code s'.
Proof.
  intros Hs. unfold emit_body.
  assert (∃ s1 t1, notifySpecific code rec d "error" payload s = Some (Normal, s1, t1)
                   ∧ safe code s1) as (s1 & t1 & -> & Hs1).
  { unfold notifySpecific. rewrite property_own by apply property_error.
    destruct (listeners s !! "error") as [set|] eqn:E; [|by eexists _, _].
    apply forEach_calm; [|done]. apply Forall_forall. intros l Hl.
    destruct Hs as [He _]. apply He. unfold registered. simpl. by rewrite E. }
  cbn [andThen].
  assert (∃ s2 t2, notifyWildcard code rec d "error" payload s1 = Some (Normal, s2, t2)
                   ∧ safe code s2) as (s2 & t2 & -> & Hs2).
  { unfold notifyWildcard. case_decide; [|by eexists _, _].
    destruct (forEach_calm rec d Wildcard (ArgWild "error" payload)
                (wildcardListeners s1) (push ("error", payload) s1))
      as (s2 & t2 & -> & Hs2).
    - apply Forall_forall. intros l Hl. destruct Hs1 as [_ Hw]. by apply Hw.
    - by apply safe_data.
    - simpl. eexists _, _. split; [done|]. by apply safe_data. }
  by eexists _, _.
Qed.

Lemma forEach_contained fuel d k a snapshot s :
  safe code s →
  ∃ s' t, forEach code (emit code (S fuel)) d k a snapshot s = Some (Normal, s', t)
          ∧ safe code s'.
Proof.
  revert s. induction snapshot as [|l rest IH]; intros s Hs; cbn [forEach];
    [by eexists _, _|].
  destruct (call_detached (emit code (S fuel)) d l (current k a s) s Hs)
    as (c' & s1 & t1 & -> & Hs1 & _).
  destruct c' as [|err]; cbn [tryCatch logged andThen].
  - destruct (IH s1 Hs1) as (s' & t & -> & Hs'). by eexists _, _.
  - change (emit code (S fuel) (S d) "error" (to_error k err) s1)
      with (emit_body code (emit code fuel) (S d) "error" (to_error k err) s1).
    destruct (emit_error_calm (emit code fuel) (S d) (to_error k err) s1 Hs1)
      as (s2 & t2 & -> & Hs2).
    cbn [logged andThen]. destruct (IH s2 Hs2) as (s' & t & -> & Hs'). by eexists _, _.
Qed.

(** X11. When the listeners of ["error"] and the wildcard listeners never
    throw, no function registers listeners or calls [emit], and C is not an
    inherited name without a set, then [emit(C, payload)] returns normally
    however many listeners of C throw: two nested calls of [emit] are
    enough, every listener of C is called and its function run with the
    payload, and the ["error"] and wildcard listeners still never throw
    afterwards. *)
Theorem faults_are_contained_by_a_calm_error_path fuel d C payload s :
  safe code s →
  property C s ≠ Inherited →
  ∃ s' t,
    emit code (S (S fuel)) d C payload s = Some (Normal, s', t)
    ∧ payload_calls (direct d t) = default [] (listeners s !! C)
    ∧ payload_calls (runs d t) = map wrapped (default [] (listeners s !! C))
    ∧ safe code s'.
Proof.
  intros Hs Hp.
  assert (∃ s1 t1, notifySpecific code (emit code (S fuel)) d C payload s
                   = Some (Normal, s1, t1) ∧ safe code s1) as (s1 & t1 & H1 & Hs1).
  { unfold notifySpecific. rewrite property_own by done.
    destruct (listeners s !! C); [|by eexists _, _].
    by apply forEach_contained. }
  assert (∃ s2 t2, notifyWildcard code (emit code (S fuel)) d C payload s1
                   = Some (Normal, s2, t2) ∧ safe code s2) as (s2 & t2 & H2 & Hs2).
  { unfold notifyWildcard. case_decide; [|by eexists _, _].
    destruct (forEach_contained fuel d Wildcard (ArgWild C payload)
                (wildcardListeners s1) (push (C, payload) s1))
      as (s2 & t2 & -> & Hs2); [by apply safe_data|].
    simpl. eexists _, _. split; [done|]. by apply safe_data. }
  assert (emit code (S (S fuel)) d C payload s
          = Some (Normal, s2, EvEmit d C payload :: t1 ++ t2)) as Hemit.
  { change (emit code (S (S fuel)) d C payload s)
      with (emit_body code (emit code (S fuel)) d C payload s).
    unfold emit_body. rewrite H1. cbn [andThen]. by rewrite H2. }
  exists s2, (EvEmit d C payload :: t1 ++ t2). split_and!; [done| | |done].
  - apply emit_calls in Hemit
      as (s3 & t3 & t4 & _ & H4 & _ & _ & Hd1 & _ & _ & _ & -> & _).
    pose proof (notifyWildcard_args _ _ _ _ _ _ _ _ _ H4) as Hwild.
    by rewrite Hd1, payload_calls_app, (payload_calls_wildcard_args _ Hwild),
      payload_calls_payload, app_nil_r.
  - apply emit_calls in Hemit
      as (s3 & t3 & t4 & _ & H4 & _ & _ & _ & Hr1 & _ & Hr2 & _ & -> & _).
    pose proof (notifyWildcard_args _ _ _ _ _ _ _ _ _ H4) as Hwild.
    rewrite Hr1, Hr2, payload_calls_app, payload_calls_wrapped,
      (payload_calls_wildcard_args _ Hwild), app_nil_r.
    clear. induction (default [] (listeners s !! C)) as [|l set IH]; [done|].
    simpl. by rewrite IH.
Qed.

End Contained.

Lemma faults_are_contained_by_a_calm_error_path_witness :
  safe demo_code demo_registered
  ∧ property "user:created" demo_registered ≠ Inherited
  ∧ emit demo_code 2 0 "user:created" (VObj 101) demo_registered
    = Some (Normal, demo_registered,
            [EvEmit 0 "user:created" (VObj 101);
             EvCall 0 (User 0) (ArgPayload (VObj 101));
             EvRun 0 0 (ArgPayload (VObj 101));
             EvCall 0 (User 4) (ArgPayload (VObj 101));
             EvRun 0 4 (ArgPayload (VObj 101));
             EvCaught 0 Specific
               (VError "Something went wrong in this specific listener!");
             EvEmit 1 "error" (VError "Something went wrong in this specific listener!");
             EvCall 1 (User 3)
               (ArgPayload (VError "Something went wrong in this specific listener!"));
             EvRun 1 3
               (ArgPayload (VError "Something went wrong in this specific listener!"));
             EvCall 1 (User 2)
               (ArgWild "error"
                  (VError "Something went wrong in this specific listener!"));
             EvRun 1 2
               (ArgWild "error"
                  (VError "Something went wrong in this specific listener!"));
             EvCall 0 (User 2) (ArgWild "user:created" (VObj 101));
             EvRun 0 2 (ArgWild "user:created" (VObj 101))])
  ∧ ∃ s' t,
      emit demo_code 2 0 "user:created" (VObj 101) demo_registered = Some (Normal, s', t)
      ∧ payload_calls (direct 0 t) = [User 0; User 4]
      ∧ payload_calls (runs 0 t) = [0; 4].
Proof.
  assert (safe demo_code demo_registered) as Hs.
  { split; intros l Hl; vm_compute in Hl; apply list_elem_of_singleton in Hl as ->;
      by split. }
  assert (property "user:created" demo_registered ≠ Inherited) as Hp by (by vm_compute).
  split; [exact Hs|]. split; [exact Hp|]. split; [vm_compute; reflexivity|].
  destruct (faults_are_contained_by_a_calm_error_path demo_code
              (λ n a, match n with
                      | 0 | 1 | 2 | 3 => I
                      | 4 => I
                      | _ => I
                      end) 0 0 "user:created" (VObj 101) demo_registered Hs Hp)
    as (s' & t & Hemit & Hcalls & Hruns & _).
  exists s', t. split_and!; [exact Hemit | exact Hcalls | exact Hruns].
Defined.

(** ** Listeners that leave the registrations alone *)

Lemma no_closures_all_closures s : no_closures s ↔ all_closures (λ _ _ _, False) s.
Proof.
  split.
  - intros [Hmap Hwild]. split.
    + intros ev set i e n Hset Hin. apply Hmap in Hset.
      rewrite Forall_forall in Hset. by apply Hset in Hin.
    + intros i e n Hin. rewrite Forall_forall in Hwild. by apply Hwild in Hin.
  - intros [Hmap Hwild]. split.
    + intros ev set Hset. apply Forall_forall. intros [n|i e n] Hin; [done|].
      by eapply Hmap.
    + apply Forall_forall. intros [n|i e n] Hin; [done|]. by eapply Hwild.
Qed.

Lemma same_registrations_trans s1 s2 s3 :
  same_registrations s1 s2 → same_registrations s2 s3 → same_registrations s1 s3.
Proof. intros (? & ? & ?) (? & ? & ?). split_and!; congruence. Qed.

Lemma no_closures_same s s' : same_registrations s s' → no_closures s → no_closures s'.
Proof. intros (Hl & Hw & _). unfold no_closures. by rewrite Hl, Hw. Qed.

Lemma same_registrations_eq s s' :
  same_registrations s s' → eventData s' = eventData s → s' = s.
Proof. destruct s, s'. simpl. intros (? & ? & ?) ?. simpl in *. congruence. Qed.

Lemma property_Own eventName s set :
  property eventName s = Own set → listeners s !! eventName = Some set.
Proof.
  unfold property. destruct (listeners s !! eventName); [congruence|].
  by destruct (inherited eventName).
Qed.

Section Passive.

Variable code : nat → arg → prog.
Hypothesis code_passive : ∀ n a, passive (code n a).
Variable rec : nat → string → value → emitter → outcome.
Hypothesis rec_unchanged :
  ∀ d eventName payload s c s' t,
    rec d eventName payload s = Some (c, s', t) → no_closures s →
    same_registrations s s'.

Lemma run_passive d c s c' s' t :
  passive c → no_closures s → run rec d c s = Some (c', s', t) →
  same_registrations s s'.
Proof.
  revert s t.
  induction c as [| |ev n k IH|ev n k IH|ev n k IH|ev p k IH|o k IH|ev k IH
                  |i e k IH|i p k IH|i k IH]; intros s t Hc Hs; simpl in *; try done.
  - by intros [= _ <- _].
  - by intros [= _ <- _].
  - intros Hrun.
    apply andThen_Some in Hrun as [(s1 & t1 & t2 & H1 & Hk & _)|(err & _ & H1)].
    + apply rec_unchanged in H1; [|done].
      eapply same_registrations_trans; [exact H1|].
      eapply IH; [done| |exact Hk]. by eapply no_closures_same.
    + by eapply rec_unchanged.
  - by eapply IH.
  - intros Hrun. by apply IH in Hrun.
  - intros Hrun. by apply IH in Hrun.
  - by eapply IH.
Qed.

Lemma forEach_passive d k a snapshot s c s' t :
  Forall is_user snapshot → no_closures s →
  forEach code rec d k a snapshot s = Some (c, s', t) → same_registrations s s'.
Proof.
  intros Hsnap. revert s t. induction Hsnap as [|l rest Hl _ IH]; intros s t Hs; simpl.
  { by intros [= _ <- _]. }
  destruct l as [n|]; [|done]. intros Hloop.
  assert (∀ c1 s1 t1,
            tryCatch (call code rec d (User n) (current k a s) s)
              (λ err s0, logged (EvCaught d k err)
                           (rec (S d) "error" (to_error k err) s0))
            = Some (c1, s1, t1) → same_registrations s s1) as Hone.
  { intros c1 s1 t1 Htry.
    assert (∀ c2 s2 t2, call code rec d (User n) (current k a s) s = Some (c2, s2, t2)
                        → same_registrations s s2) as Hcall.
    { intros c2 s2 t2 Hcall. simpl in Hcall. unfold apply in Hcall.
      apply logged_Some in Hcall as (t0 & Hrun & _).
      by eapply run_passive. }
    apply tryCatch_Some in Htry
      as [[_ Hc]|(err & s0 & tc & te & Hc & Hcatch & _)]; [by eapply Hcall|].
    apply Hcall in Hc. apply logged_Some in Hcatch as (te' & Herr & _).
    eapply same_registrations_trans; [exact Hc|].
    eapply rec_unchanged; [exact Herr|]. by eapply no_closures_same. }
  apply andThen_Some in Hloop as [(s1 & t1 & t2 & H1 & Hrest & _)|(err & _ & H1)];
    apply logged_Some in H1 as (t0 & Htry & _); apply Hone in Htry; [|done].
  eapply same_registrations_trans; [exact Htry|].
  eapply IH; [|exact Hrest]. by eapply no_closures_same.
Qed.

Lemma emit_body_passive d eventName payload s c s' t :
  emit_body code rec d eventName payload s = Some (c, s', t) →
  no_closures s → same_registrations s s'.
Proof.
  intros Hbody Hs. pose proof Hs as [Hmap Hwild].
  unfold emit_body in Hbody. apply logged_Some in Hbody as (t0 & Hseq & _).
  assert (∀ c1 s1 t1, notifySpecific code rec d eventName payload s = Some (c1, s1, t1)
                      → same_registrations s s1) as H1.
  { unfold notifySpecific. intros c1 s1 t1.
    destruct (property eventName s) as [set| |] eqn:E; [|by intros [= _ <- _]..].
    apply forEach_passive; [|done]. eapply Hmap. by apply property_Own. }
  apply andThen_Some in Hseq as [(s1 & t1 & t2 & Hspec & Hw & _)|(err & _ & Hspec)];
    apply H1 in Hspec; [|done].
  eapply same_registrations_trans; [exact Hspec|].
  pose proof (no_closures_same _ _ Hspec Hs) as [Hmap1 Hwild1].
  unfold notifyWildcard in Hw. case_decide; [|by injection Hw as _ <- _].
  apply popped_Some in Hw as (s2 & Hloop & ->).
  apply forEach_passive in Hloop; [exact Hloop|done|by split].
Qed.

End Passive.

(** X12. [emit] itself changes no registration: when only client functions
    are registered and none of them calls [on], [once], [off] or
    [removeAllListeners], the registrations after a returning [emit] are
    those before it, whatever was thrown and whatever nested [emit]s were
    made; when no function assigns to an event object either, the emitter
    after the call is the emitter before it. *)
Theorem emit_changes_nothing_by_itself code fuel d eventName payload s c s' t :
  (∀ n a, passive (code n a)) →
  no_closures s →
  emit code fuel d eventName payload s = Some (c, s', t) →
  same_registrations s s'
  ∧ ((∀ n a, write_free (code n a)) → s' = s).
Proof.
  intros Hcode Hs Hemit.
  assert (same_registrations s s') as Hsame.
  { revert d eventName payload s c s' t Hs Hemit.
    induction fuel as [|fuel IH]; intros d eventName payload s c s' t Hs Hemit; [done|].
    simpl in Hemit. eapply emit_body_passive; [done| |exact Hemit|done].
    intros d' ev p s0 c0 s0' t0 Hrec Hs0. by eapply IH. }
  split; [done|]. intros Hfree. apply same_registrations_eq; [done|].
  by eapply emit_unwritten.
Qed.

Lemma emit_changes_nothing_by_itself_witness :
  no_closures error_audience
  ∧ (∃ t, emit (throwing (VStr "boom")) 2 0 "z" (VNum 1) error_audience
          = Some (Normal, error_audience, t))
  ∧ no_closures two_readers
  ∧ emit rewriting 1 0 "y" (VNum 1) two_readers
    = Some (Normal, two_readers,
            [EvEmit 0 "y" (VNum 1);
             EvCall 0 (User 1) (ArgWild "y" (VNum 1));
             EvRun 0 1 (ArgWild "y" (VNum 1));
             EvCall 0 (User 2) (ArgWild "y" (VStr "changed"));
             EvRun 0 2 (ArgWild "y" (VStr "changed"))]).
Proof.
  assert (no_closures error_audience) as Hs.
  { apply no_closures_all_closures.
    repeat (apply all_closures_on; [done|]). apply all_closures_cleared. }
  assert (no_closures two_readers) as Hs2.
  { apply no_closures_all_closures.
    repeat (apply all_closures_on; [done|]). apply all_closures_cleared. }
  split; [exact Hs|]. split; [|split; [exact Hs2|]].
  - destruct (emit (throwing (VStr "boom")) 2 0 "z" (VNum 1) error_audience)
      as [[[c s'] t]|] eqn:Hemit; [|by vm_compute in Hemit].
    destruct (emit_changes_nothing_by_itself (throwing (VStr "boom")) 2 0 "z" (VNum 1)
                error_audience c s' t) as [_ Heq];
      [by intros [|n] a | exact Hs | exact Hemit |].
    rewrite Heq by (by intros [|n] a).
    destruct (emit_sound _ _ _ _ _ _ _ _ _ Hemit) as (Hc & _).
    rewrite Hc by (by vm_compute). by exists t.
  - destruct (emit rewriting 1 0 "y" (VNum 1) two_readers)
      as [[[c s'] t]|] eqn:Hemit; [|by vm_compute in Hemit].
    destruct (emit_changes_nothing_by_itself rewriting 1 0 "y" (VNum 1)
                two_readers c s' t) as [Hsame _];
      [by intros [|[|n]] a | exact Hs2 | exact Hemit |].
    assert (s' = two_readers) as ->.
    { apply same_registrations_eq; [exact Hsame|].
      vm_compute in Hemit. by injection Hemit as _ <- _. }
    vm_compute in Hemit. injection Hemit as <- <-. reflexivity.
Defined.

(** ** A listener of [once] that returns is removed for good *)

Lemma registered_on_subseteq C eventName l s x :
  x ∈ registered C (on eventName l s).2 → x ∈ registered C s ∨ x = l.
Proof.
  destruct (decide (eventName = C)) as [->|Hne];
    [|rewrite registered_on_other by done; by left].
  pose proof (registered_on C l s) as Hon.
  destruct (on C l s) as [[|err] s1] eqn:E; simpl in *.
  - rewrite Hon by done. by rewrite elem_of_Set_add.
  - apply on_Thrown in E as (_ & -> & _). by left.
Qed.

Lemma runs_elem d t n a : (n, a) ∈ runs d t → EvRun d n a ∈ t.
Proof.
  induction t as [|e t IH]; simpl; [by intros ?%elem_of_nil|].
  destruct e as [| |d' m a'|]; try (intros Hin; right; by apply IH).
  case_decide as Hd; [|intros Hin; right; by apply IH].
  intros [[= <- <-]|Hin]%elem_of_cons; [subst; left | right; by apply IH].
Qed.

Lemma run_no_throw rec d c s c' s' t :
  sound rec → no_throw c → run rec d c s = Some (c', s', t) → c' = Normal.
Proof.
  intros Hrec. revert s t.
  induction c as [| |ev n k IH|ev n k IH|ev n k IH|ev p k IH|o k IH|ev k IH
                  |i e k IH|i p k IH|i k IH]; intros s t Hc; simpl in *; try done; eauto.
  - by intros [= <- _ _].
  - destruct Hc as [Hev Hk].
    intros [[_ Hrun]|(err & Hon & _)]%method_andThen_Some; [by eapply IH|].
    rewrite on_returns in Hon; [done|]. right. by apply property_not_inherited.
  - destruct Hc as [Hev Hk].
    intros [[_ Hrun]|(err & Hon & _)]%method_andThen_Some; [by eapply IH|].
    unfold once in Hon. rewrite on_returns in Hon; [done|].
    right. by apply property_not_inherited.
  - destruct Hc as [Hev Hk].
    intros [[_ Hrun]|(err & Hoff & _)]%method_andThen_Some; [by eapply IH|].
    rewrite off_returns in Hoff; [done|]. right. by apply property_not_inherited.
  - destruct Hc as [Hev Hk]. intros Hrun.
    apply andThen_Some in Hrun as [(s1 & t1 & t2 & _ & Hrun & _)|(err & -> & H1)];
      [by eapply IH|].
    apply Hrec in H1 as (Hnormal & _). apply Hnormal.
    by apply property_not_inherited.
Qed.

Section Once.

Variable code : nat → arg → prog.
Variables (C : string) (i n : nat).
Hypothesis n_returns : ∀ a, no_throw (code n a).
Hypothesis C_named : inherited C = false.

(** The closure is built and is not in the set of C. *)
Let built (s : emitter) : Prop := i < wrapperCount s.
Let gone (s : emitter) : Prop :=
  (OnceWrapper i C n ∉ registered C s) ∧ i < wrapperCount s.

Lemma built_on eventName l s : built s → built (on eventName l s).2.
Proof. unfold built. by rewrite wrapperCount_on. Qed.

Lemma built_once eventName m s : built s → built (once eventName m s).2.
Proof. unfold built. rewrite wrapperCount_once. lia. Qed.

Lemma built_off eventName l s : built s → built (off eventName l s).2.
Proof. unfold built. by rewrite wrapperCount_off. Qed.

Lemma built_removeAllListeners eventName s :
  built s → built (removeAllListeners eventName s).
Proof. unfold built. by rewrite wrapperCount_removeAllListeners. Qed.

Lemma emit_keeps_built fuel : keeps built (emit code fuel).
Proof.
  apply emit_keeps; intros.
  - by apply built_on.
  - by apply built_once.
  - by apply built_off.
  - by apply built_removeAllListeners.
  - done.
Qed.

Lemma gone_on eventName m s : gone s → gone (on eventName (User m) s).2.
Proof.
  intros [Hout Hi]. split; [|by apply built_on].
  by intros [?|?]%registered_on_subseteq.
Qed.

Lemma gone_once eventName m s : gone s → gone (once eventName m s).2.
Proof.
  intros [Hout Hi]. split; [|by apply built_once].
  unfold once. intros [?|[= -> _ _]]%registered_on_subseteq; [done | lia].
Qed.

Lemma gone_off eventName l s : gone s → gone (off eventName l s).2.
Proof.
  intros [Hout Hi]. split; [|by apply built_off].
  by intros ?%registered_off_subseteq.
Qed.

Lemma gone_removeAllListeners eventName s : gone s → gone (removeAllListeners eventName s).
Proof.
  intros [Hout Hi]. split; [|by apply built_removeAllListeners].
  rewrite registered_removeAllListeners. destruct eventName; [|apply not_elem_of_nil].
  repeat case_decide; try done; apply not_elem_of_nil.
Qed.

Lemma emit_keeps_gone fuel : keeps gone (emit code fuel).
Proof.
  apply emit_keeps; intros.
  - by apply gone_on.
  - by apply gone_once.
  - by apply gone_off.
  - by apply gone_removeAllListeners.
  - done.
Qed.

Lemma forEach_keeps_built fuel d k a snapshot s c s' t :
  forEach code (emit code fuel) d k a snapshot s = Some (c, s', t) →
  built s → built s'.
Proof.
  intros Hloop. eapply (forEach_keeps built); [..|exact Hloop]; intros.
  - by apply built_on.
  - by apply built_once.
  - by apply built_off.
  - by apply built_removeAllListeners.
  - done.
  - apply emit_keeps_built.
Qed.

Lemma forEach_keeps_gone fuel d k a snapshot s c s' t :
  forEach code (emit code fuel) d k a snapshot s = Some (c, s', t) →
  gone s → gone s'.
Proof.
  intros Hloop. eapply (forEach_keeps gone); [..|exact Hloop]; intros.
  - by apply gone_on.
  - by apply gone_once.
  - by apply gone_off.
  - by apply gone_removeAllListeners.
  - done.
  - apply emit_keeps_gone.
Qed.

(** The round of the closure: the function returns, so the closure goes on
    to remove itself. *)
Lemma call_once_removes fuel d k a s s1 t1 :
  built s →
  forEach code (emit code fuel) d k a [OnceWrapper i C n] s = Some (Normal, s1, t1) →
  gone s1.
Proof.
  intros Hi Hloop. cbn [forEach] in Hloop.
  apply andThen_Some in Hloop as [(s2 & t2 & t3 & H1 & [= <- _] & _)|(err & [=] & _)].
  apply logged_Some in H1 as (t0 & Htry & _).
  assert (∀ c0 s0 t0 a0, apply code (emit code fuel) d n a0 s = Some (c0, s0, t0) →
                         c0 = Normal ∧ built s0) as Happly.
  { intros c0 s0 t' a0 Happ. unfold apply in Happ.
    apply logged_Some in Happ as (t'' & Hrun & _). split.
    - eapply run_no_throw; [apply emit_sound | apply n_returns | exact Hrun].
    - eapply (run_keeps built); [..|exact Hrun|exact Hi]; intros.
      + by apply built_on.
      + by apply built_once.
      + by apply built_off.
      + by apply built_removeAllListeners.
      + done.
      + apply emit_keeps_built. }
  assert (∀ s0, (off C (OnceWrapper i C n) s0).1 = Normal) as Hoff_returns.
  { intros s0. apply off_returns. right. by apply property_not_inherited. }
  assert (∀ c0 s0 t0, call code (emit code fuel) d (OnceWrapper i C n) (current k a s) s
                      = Some (c0, s0, t0) → c0 = Normal ∧ gone s0) as Hcall.
  { intros c0 s0 t' Hcall. cbn [call] in Hcall.
    apply andThen_Some in Hcall
      as [(s0' & t'' & t''' & Happ & Hoff & _)|(err' & -> & Happ)].
    - apply Happly in Happ as [_ Hbuilt]. unfold method in Hoff.
      injection Hoff as <- <- _. split; [apply Hoff_returns|]. split.
      + rewrite registered_off by apply Hoff_returns. apply Set_delete_gone.
      + by apply built_off.
    - by apply Happly in Happ as [? _]. }
  apply tryCatch_Some in Htry as [[_ Hc]|(err & s0 & tc & te & Hc & _)];
    apply Hcall in Hc as [Hc Hgone]; done.
Qed.

Lemma forEach_once_removes fuel d k a snapshot s c s' t :
  built s →
  OnceWrapper i C n ∈ snapshot ∨ OnceWrapper i C n ∉ registered C s →
  forEach code (emit code fuel) d k a snapshot s = Some (c, s', t) →
  gone s'.
Proof.
  revert s t. induction snapshot as [|l rest IH]; intros s t Hi Hw Hloop.
  { injection Hloop as _ <- _. destruct Hw as [Hw|Hw]; [by apply elem_of_nil in Hw|].
    by split. }
  apply (forEach_app code (emit code fuel) (emit_sound code fuel) d k a [l] rest)
    in Hloop as (s1 & t1 & t2 & H1 & Hrest & _).
  destruct (decide (l = OnceWrapper i C n)) as [->|Hl].
  - apply call_once_removes in H1; [|done]. by eapply forEach_keeps_gone.
  - eapply (IH s1 t2); [by eapply forEach_keeps_built| |exact Hrest].
    destruct Hw as [Hw|Hw].
    + apply elem_of_cons in Hw as [?|?]; [congruence | by left].
    + right. assert (gone s1) as [? _]; [|done].
      eapply forEach_keeps_gone; [exact H1|by split].
Qed.

(** X13. A function registered with [once(C, L)] that never throws, for a
    name C that is not an inherited one: the first returning
    [emit(C, payload)] that finds its closure in the set of C completes
    normally, calls the closure and runs the function with the payload, and
    when [emit] returns the closure is out of the set of C, whatever the
    other listeners did in between. *)
Theorem once_listener_is_removed_by_its_emit fuel d payload s c s' t :
  C ≠ "*" →
  closures_known s →
  OnceWrapper i C n ∈ registered C s →
  emit code fuel d C payload s = Some (c, s', t) →
  c = Normal
  ∧ (OnceWrapper i C n, ArgPayload payload) ∈ direct d t
  ∧ (n, ArgPayload payload) ∈ runs d t
  ∧ EvRun d n (ArgPayload payload) ∈ t
  ∧ OnceWrapper i C n ∉ registered C s'.
Proof.
  intros HC Hck Hin Hemit. destruct fuel as [|fuel]; [done|].
  assert (c = Normal) as ->.
  { apply emit_sound in Hemit as (Hc & _). by apply Hc, property_not_inherited. }
  assert (built s) as Hi by (by eapply closures_known_registered).
  pose proof Hemit as Hloops.
  apply emit_calls in Hemit
    as (s1 & t1 & t2 & H1 & H2 & _ & Hp & Hd1 & Hr1 & _ & _ & Hd & Hr & _).
  rewrite registered_specific in Hin by done.
  assert ((n, ArgPayload payload) ∈ runs d t) as Hrun.
  { rewrite Hr, Hr1. apply elem_of_app. left.
    by apply (list_elem_of_fmap_2 (λ l, (wrapped l, ArgPayload payload)) _
                (OnceWrapper i C n)). }
  split_and!; [done| |done|by apply runs_elem|].
  - rewrite Hd, Hd1. apply elem_of_app. left.
    by apply (list_elem_of_fmap_2 (λ l, (l, ArgPayload payload))).
  - apply emit_loops in Hloops as (s1' & s2 & t1' & t2' & Hfirst & Hsecond & -> & _).
    assert (gone s1') as Hgone.
    { eapply forEach_once_removes; [exact Hi| |exact Hfirst]. by left. }
    assert (gone s2) as [? _]; [|done].
    eapply forEach_keeps_gone; [exact Hsecond|]. exact Hgone.
Qed.

End Once.

Lemma once_listener_is_removed_by_its_emit_witness :
  closures_known once_x
  ∧ OnceWrapper 0 "x" 0 ∈ registered "x" once_x
  ∧ emit noting 1 0 "x" (VNum 1) once_x
    = Some (Normal,
            (off "x" (OnceWrapper 0 "x" 0) (on "other payload" (User 0) once_x).2).2,
            [EvEmit 0 "x" (VNum 1);
             EvCall 0 (OnceWrapper 0 "x" 0) (ArgPayload (VNum 1));
             EvRun 0 0 (ArgPayload (VNum 1))])
  ∧ registered "x"
      (off "x" (OnceWrapper 0 "x" 0) (on "other payload" (User 0) once_x).2).2 = []
  ∧ (0, ArgPayload (VNum 1))
    ∈ runs 0 [EvEmit 0 "x" (VNum 1);
              EvCall 0 (OnceWrapper 0 "x" 0) (ArgPayload (VNum 1));
              EvRun 0 0 (ArgPayload (VNum 1))]
  ∧ OnceWrapper 0 "x" 0
    ∉ registered "x"
        (off "x" (OnceWrapper 0 "x" 0) (on "other payload" (User 0) once_x).2).2.
Proof.
  assert (closures_known once_x) as Hck
    by (apply closures_known_once, closures_known_new_emitter).
  assert (OnceWrapper 0 "x" 0 ∈ registered "x" once_x) as Hin by (vm_compute; left).
  assert (∀ a, no_throw (noting 0 a)) as Hn
    by (intros [p|e p]; simpl; by repeat case_decide).
  assert (emit noting 1 0 "x" (VNum 1) once_x
          = Some (Normal,
                  (off "x" (OnceWrapper 0 "x" 0)
                     (on "other payload" (User 0) once_x).2).2,
                  [EvEmit 0 "x" (VNum 1);
                   EvCall 0 (OnceWrapper 0 "x" 0) (ArgPayload (VNum 1));
                   EvRun 0 0 (ArgPayload (VNum 1))])) as Hemit
    by (vm_compute; reflexivity).
  destruct (once_listener_is_removed_by_its_emit noting "x" 0 0 Hn eq_refl
              1 0 (VNum 1) once_x _ _ _ ltac:(done) Hck Hin Hemit)
    as (_ & _ & Hrun & _ & Hout).
  split; [exact Hck|]. split; [exact Hin|]. split; [exact Hemit|].
  split; [by vm_compute|]. split; [exact Hrun | exact Hout].
Defined.

(** ** The demonstration script *)

(** X14. [src/index.ts].  Before the calls of [emit] the counts are 2 for
    ['user:created'], 1 for ['user:deleted'] and 1 for ["*"], as the script
    expects.  The four calls return; the listener given to [once] runs for
    the first ['user:deleted'] only; the fault thrown by the listener of
    ['user:created'] reaches the ['error'] listener as the thrown [Error]
    itself; afterwards the counts are 2, 0 and 1. *)
Theorem demo_script_runs_as_commented :
  getListenerCount "user:created" demo_registered = 2
  ∧ getListenerCount "user:deleted" demo_registered = 1
  ∧ getListenerCount "*" demo_registered = 1
  ∧ ∃ s' t,
      emits demo_code 2 demo_calls demo_registered = Some (Normal, s', t)
      ∧ runs_of 1 t = [(0, ArgPayload (VObj 202))]
      ∧ runs_of 3 t
        = [(1, ArgPayload (VError "Something went wrong in this specific listener!"))]
      ∧ length (runs_of 2 t) = 5
      ∧ getListenerCount "user:created" s' = 2
      ∧ getListenerCount "user:deleted" s' = 0
      ∧ getListenerCount "*" s' = 1.
Proof.
  split_and!; [by vm_compute..|].
  eexists _, _. split; [vm_compute; reflexivity|].
  split_and!; by vm_compute.
Qed.
